(** * Point-in-circle simulation: circle geometry kernel and quadrant map

    A shallow embedding of the TypeScript Math Toolkit circle utilities
    ([circle-util-functions.ts]), the quadrant classifier
    ([geom-util-functions.ts]), the point class ([geom/Point.ts]), the
    random walk ([point-random-walk.ts]), the quad-map simulation step of
    [PicCanvasDirective] ([pic-canvas.directive.ts]) and the full-scan step
    of [PicSvgDirective] ([pic-svg-directive.ts]).

    The source computes on JavaScript numbers.  Every function is written
    once, over an interface [Number] of the arithmetic the source uses, and
    read at two instances:
    - [float], IEEE-754 binary64, which is what a JavaScript engine runs
      (NaN, signed zeros, infinities and rounding included);
    - [R], exact real arithmetic, for the geometric statements, which are
      about the formulas and not about rounding.  Division by zero and the
      square root of a negative number are not meaningful in [R]; statements
      at this instance keep to inputs on which the source performs neither,
      and the NaN behaviour is stated at [float]. *)

From Stdlib Require Import ZArith QArith Reals Lra Lia Bool List String.
From Stdlib Require Import DecimalString DecimalNat.
From Stdlib Require Import Sorted.
From Stdlib Require Uint63 Floats.
Import ListNotations.

Abbreviation float := PrimFloat.float.

(** ** JavaScript numbers *)

Declare Scope js_scope.
Delimit Scope js_scope with js.

Class Number (A : Type) : Type := {
  lit : Q -> A;               (* a decimal literal of the source *)
  nadd : A -> A -> A;
  nsub : A -> A -> A;
  nmul : A -> A -> A;
  ndiv : A -> A -> A;
  Math_sqrt : A -> A;
  Math_abs : A -> A;
  Math_max : A -> A -> A;
  Math_min : A -> A -> A;
  Math_round : A -> A;
  nltb : A -> A -> bool;      (* <  *)
  nleb : A -> A -> bool;      (* <= *)
  neqb : A -> A -> bool;      (* == *)
  isNaN : A -> bool
}.

Arguments lit {A _} q%_Q.

(** the two transcendental functions of the source, read at [R] only *)
Class Trig (A : Type) : Type := {
  Math_acos : A -> A;
  Math_sin : A -> A
}.

Notation "x + y" := (nadd x y) : js_scope.
Notation "x - y" := (nsub x y) : js_scope.
Notation "x * y" := (nmul x y) : js_scope.
Notation "x / y" := (ndiv x y) : js_scope.
Notation "x <? y" := (nltb x y) : js_scope.
Notation "x <=? y" := (nleb x y) : js_scope.
Notation "x >? y" := (nltb y x) : js_scope.
Notation "x >=? y" := (nleb y x) : js_scope.
Notation "x ==? y" := (neqb x y) (at level 70, no associativity) : js_scope.
Notation "x !=? y" := (negb (neqb x y)) (at level 70, no associativity) : js_scope.

(** *** binary64 *)

Module F64.

Definition of_Z (z : Z) : float :=
  match z with
  | Z0 => PrimFloat.zero
  | Zpos _ => PrimFloat.of_uint63 (Uint63.of_Z z)
  | Zneg p => PrimFloat.opp (PrimFloat.of_uint63 (Uint63.of_Z (Zpos p)))
  end.

(* numerator and denominator of the literals of the source are exact in
   binary64, so the correctly rounded quotient is the literal's value *)
Definition of_Q (q : Q) : float :=
  PrimFloat.div (of_Z (Qnum q)) (of_Z (Zpos (Qden q))).

Definition is_neg_zero (x : float) : bool :=
  match PrimFloat.classify x with
  | FloatClass.NZero => true
  | _ => false
  end.

(* Math.max: NaN if either argument is NaN, and +0 is larger than -0 *)
Definition max (x y : float) : float :=
  if PrimFloat.is_nan x || PrimFloat.is_nan y then PrimFloat.nan
  else if PrimFloat.ltb x y then y
  else if PrimFloat.ltb y x then x
  else if is_neg_zero x then y else x.

(* Math.min: NaN if either argument is NaN, and -0 is smaller than +0 *)
Definition min (x y : float) : float :=
  if PrimFloat.is_nan x || PrimFloat.is_nan y then PrimFloat.nan
  else if PrimFloat.ltb x y then x
  else if PrimFloat.ltb y x then y
  else if is_neg_zero x then x else y.

Definition two52 : float := of_Z 4503599627370496.

(* the largest integer not above x; every float of magnitude 2^52 or more
   is an integer *)
Definition floor (x : float) : float :=
  if PrimFloat.is_nan x || PrimFloat.leb two52 (PrimFloat.abs x) then x
  else if PrimFloat.eqb x PrimFloat.zero then x
  else
    let t := if PrimFloat.ltb PrimFloat.zero x
             then PrimFloat.sub (PrimFloat.add x two52) two52
             else PrimFloat.add (PrimFloat.sub x two52) two52 in
    if PrimFloat.ltb x t then PrimFloat.sub t PrimFloat.one else t.

(* Math.round: the nearest integer, a tie going towards +infinity *)
Definition round (x : float) : float :=
  let f := floor x in
  let r := if PrimFloat.leb (of_Q 0.5) (PrimFloat.sub x f)
           then PrimFloat.add f PrimFloat.one else f in
  if PrimFloat.eqb r PrimFloat.zero && PrimFloat.ltb x PrimFloat.zero
  then PrimFloat.neg_zero else r.

End F64.

#[export] Instance float_Number : Number float := {|
  lit := F64.of_Q;
  nadd := PrimFloat.add;
  nsub := PrimFloat.sub;
  nmul := PrimFloat.mul;
  ndiv := PrimFloat.div;
  Math_sqrt := PrimFloat.sqrt;
  Math_abs := PrimFloat.abs;
  Math_max := F64.max;
  Math_min := F64.min;
  Math_round := F64.round;
  nltb := PrimFloat.ltb;
  nleb := PrimFloat.leb;
  neqb := PrimFloat.eqb;
  isNaN := PrimFloat.is_nan
|}.

(** *** exact reals *)

Definition Rltb (x y : R) : bool := if Rlt_dec x y then true else false.
Definition Rleb (x y : R) : bool := if Rle_dec x y then true else false.
Definition Reqb (x y : R) : bool := if Req_dec_T x y then true else false.

Definition Rround (x : R) : R := IZR (Zfloor (x + 1 / 2)).

#[export] Instance R_Number : Number R := {|
  lit := Q2R;
  nadd := Rplus;
  nsub := Rminus;
  nmul := Rmult;
  ndiv := Rdiv;
  Math_sqrt := sqrt;
  Math_abs := Rabs;
  Math_max := Rmax;
  Math_min := Rmin;
  Math_round := Rround;
  nltb := Rltb;
  nleb := Rleb;
  neqb := Reqb;
  isNaN := fun _ => false
|}.

#[export] Instance R_Trig : Trig R := {|
  Math_acos := acos;
  Math_sin := sin
|}.

(** ** Values returned by the utilities *)

(** an object with 'x' and 'y' properties *)
Module XY.
Record t (A : Type) : Type := mk { x : A; y : A }.
Arguments mk {A} _ _.
Arguments x {A} _.
Arguments y {A} _.
End XY.

(** the result of TSMT$CircleChordParams *)
Module Chord.
Record t (A : Type) : Type := mk { l : A; theta : A; area : A }.
Arguments mk {A} _ _ _.
Arguments l {A} _.
Arguments theta {A} _.
Arguments area {A} _.
End Chord.

(** the result of TSMT$TriangleIncircle *)
Module Incircle.
Record t (A : Type) : Type := mk { r : A; x : A; y : A; area : A; p : A }.
Arguments mk {A} _ _ _ _ _.
Arguments r {A} _.
Arguments x {A} _.
Arguments y {A} _.
Arguments area {A} _.
Arguments p {A} _.
End Incircle.

(** ** circle-util-functions.ts *)

Section CircleUtil.

Context {A : Type} `{Number A}.
Local Open Scope js_scope.

(** Properties of the circular segment cut by a chord at distance [dist]
    from the centre *)
Definition TSMT_CircleChordParams `{Trig A} (radius dist : A) : Chord.t A :=
  let r := if isNaN radius || (radius <? lit 0) then lit 0.05 else radius in
  let d := if isNaN dist then lit 0 else dist in
  let d := Math_max (lit 0) d in
  let d := Math_min r d in
  let h := r - d in
  let theta := Math_acos (d / r) in
  let len := lit 2.0 * Math_sqrt (h * (lit 2 * r - h)) in
  let area := lit 0.5 * r * r * (theta - Math_sin theta) in
  Chord.mk len theta area.

(** the test that guards the division in TSMT$TriangleCircumcircle; the
    three locals are all computed from [a], as in the source *)
Definition Circumcircle_guard (a b c : A) : bool :=
  let _a := if isNaN a || (a <? lit 0) then lit 0 else a in
  let _b := if isNaN a || (a <? lit 0) then lit 0 else a in
  let _c := if isNaN a || (a <? lit 0) then lit 0 else a in
  (_a ==? lit 0) && (_b ==? lit 0) && (_c ==? lit 0).

(** the quotient TSMT$TriangleCircumcircle returns past its guard *)
Definition Circumcircle_quotient (a b c : A) : A :=
  a * b * c / Math_sqrt ((a + b + c) * (b + c - a) * (c + a - b) * (a + b - c)).

(** Radius of the circumcircle of a triangle with the three side lengths *)
Definition TSMT_TriangleCircumcircle (a b c : A) : A :=
  if Circumcircle_guard a b c then lit 0
  else Circumcircle_quotient a b c.

(** Incircle of the triangle through (ax,ay), (bx,by), (cx,cy) *)
Definition TSMT_TriangleIncircle (ax ay bx by_ cx cy : A) : Incircle.t A :=
  (* opposite side lengths *)
  let dx := cx - bx in
  let dy := cy - by_ in
  let a := Math_sqrt (dx * dx + dy * dy) in
  let dx := cx - ax in
  let dy := cy - ay in
  let b := Math_sqrt (dx * dx + dy * dy) in
  let dx := bx - ax in
  let dy := by_ - ay in
  let c := Math_sqrt (dx * dx + dy * dy) in
  (* perimeter *)
  let s := a + b + c in
  if s <? lit 0.00000001 then Incircle.mk (lit 0) ax ay (lit 0) (lit 0)
  else
    let p := lit 1.0 / s in
    (* incenter coordinates *)
    let incenterX := (a * ax + b * bx + c * cx) * p in
    let incenterY := (a * ay + b * by_ + c * cy) * p in
    (* area, by Heron's formula *)
    let semi := lit 0.5 * s in
    let area := Math_sqrt (semi * (semi - a) * (semi - b) * (semi - c)) in
    (* incircle radius *)
    let r := lit 2 * area * p in
    Incircle.mk r incenterX incenterY area s.

(** Intersection point(s) of two circles (no error-checking) *)
Definition TSMT_CircleToCircleIntersection (x0 y0 r0 x1 y1 r1 : A)
  : list (XY.t A) :=
  let dx := x1 - x0 in
  let dy := y1 - y0 in
  let d := Math_sqrt (dx * dx + dy * dy) in
  if (d >? r0 + r1) || (d <? Math_abs (r0 - r1)) then []
  else if (Math_abs d <? lit 0.001) && (Math_abs (r1 - r0) <? lit 0.001) then []
  else
    let r0sq := r0 * r0 in
    let a := (r0sq - r1 * r1 + d * d) / (lit 2 * d) in
    let h := Math_sqrt (r0sq - a * a) in
    (* unit vector *)
    let dx := dx / d in
    let dy := dy / d in
    let x2 := x0 + a * dx in
    let y2 := y0 + a * dy in
    let x3 := x2 + h * dy in
    let y3 := y2 - h * dx in
    let intersect := [XY.mk x3 y3] in
    if d !=? r0 + r1 then
      let x4 := x2 - h * dy in
      let y4 := y2 + h * dx in
      intersect ++ [XY.mk x4 y4]
    else intersect.

(** Intersection of a circle with the line through P0 = (x1,y1) and
    P1 = (x2,y2) *)
Definition TSMT_CircleSegmentIntersection (x1 y1 x2 y2 xc yc r : A)
  : list (XY.t A) :=
  let dx := x2 - x1 in
  let dy := y2 - y1 in
  let normSq := dx * dx + dy * dy in
  let t := ((xc - x1) * (x2 - x1) + (yc - y1) * (y2 - y1)) / normSq in
  (* the corresponding point, E *)
  let ex := (lit 1 - t) * x1 + t * x2 in
  let ey := (lit 1 - t) * y1 + t * y2 in
  (* distance from E to the centre *)
  let tx := ex - xc in
  let ty := ey - yc in
  let d := Math_sqrt (tx * tx + ty * ty) in
  if Math_abs (d - r) <? lit 0.0001 then
    (* tangent *)
    [XY.mk ex ey]
  else if d <? r then
    let norm := Math_sqrt normSq in
    let dt := Math_sqrt (Math_abs (r * r - d * d)) / norm in
    let t1 := t - dt in
    let t2 := t + dt in
    [XY.mk (t1 * dx + x1) (t1 * dy + y1); XY.mk (t2 * dx + x1) (t2 * dy + y1)]
  else
    (* no intersection *)
    [].

(** Is the point inside the circle with the given centre and radius *)
Definition TSMT_PointInCircle (px py xc yc r : A) : bool :=
  if (py >? yc + r) || (py <? yc - r) then false
  else if (px >? xc + r) || (px <? xc - r) then false
  else
    let dx := px - xc in
    let dy := py - yc in
    dx * dx + dy * dy <=? r * r.

End CircleUtil.

(** ** geom-util-functions.ts *)

Section GeomUtil.

Context {A : Type} `{Number A}.
Local Open Scope js_scope.

(** Quadrant number (1, 2, 3, 4) of a point relative to a rectangular test
    region, or zero if the quadrant can not be determined *)
Definition TSMT_getQuadrant (px py left top right bottom : A) : Z :=
  let xc := lit 0.5 * (left + right) in
  let yc := lit 0.5 * (bottom + top) in
  let yDown := top <=? bottom in
  let xgt := (px >=? xc) && (px <=? right) in
  let xlt := (px <=? xc) && (px >=? left) in
  let yhigh := if yDown then (py <=? yc) && (py >=? top)
               else (py >=? yc) && (py <=? top) in
  let ylow := if yDown then (py >=? yc) && (py <=? bottom)
              else (py <=? yc) && (py >=? bottom) in
  if xgt && yhigh then 1%Z
  else if xgt && ylow then 2%Z
  else if xlt && ylow then 3%Z
  else if xlt && yhigh then 4%Z
  else 0%Z.

End GeomUtil.

(** ** point-random-walk.ts *)

Section RandomWalk.

Context {A : Type} `{Number A}.
Local Open Scope js_scope.

(** An approximate random walk of a point; [u] and [t] are the values of
    the two calls of Math.random(), in the order the source makes them *)
Definition pointRandomWalk (px py low high : A) (u t : A) : A * A :=
  let lowRange := low - lit 0.499 in
  let highRange := high + lit 0.499 in
  let r := Math_round (lowRange + u * (highRange - lowRange)) in
  if t <? lit 0.25 then (px + r, py)
  else if t <? lit 0.5 then (px - r, py)
  else if t <? lit 0.75 then (px, py + r)
  else (px, py - r).

End RandomWalk.

(** ** JavaScript objects used as maps, and circle ids *)

(** A [Record<string, boolean>]: its own properties in insertion order.
    Object.keys lists integer-like keys in ascending numeric order first;
    the directive inserts the ids "0", "1", ... in ascending order, which is
    then also the insertion order. *)
Definition JsRecord : Type := list (string * bool).

Fixpoint JsRecord_set (o : JsRecord) (k : string) (v : bool) : JsRecord :=
  match o with
  | [] => [(k, v)]
  | (k', v') :: o' =>
      if String.eqb k' k then (k, v) :: o' else (k', v') :: JsRecord_set o' k v
  end.

Definition Object_keys (o : JsRecord) : list string := List.map fst o.

(** [i.toString()] for an array index *)
Definition Number_toString (i : nat) : string :=
  NilEmpty.string_of_uint (Nat.to_uint i).

(** [+id] used as an array index: the decimal value of a digit string; any
    other string gives NaN, which indexes no element *)
Definition index_of_id (id : string) : option nat :=
  option_map Nat.of_uint (NilEmpty.uint_of_string id).

(** ** services/circle-service.ts *)

Module CircleService.
Definition NUM_CIRCLES : nat := 100.
Definition MIN_RADIUS : Q := 8.
Definition MAX_RADIUS : Q := 20.
Definition LOW_RADIUS : Q := 3.
Definition HIGH_RADIUS : Q := 15.
(* circle random walk *)
Definition LOW_R : Q := 5.
Definition HIGH_R : Q := 10.
End CircleService.

(** ** TSMT$Circle *)

Module Circle.
Record t (A : Type) : Type := mk {
  id : string;
  x : A;
  y : A;
  radius : A;
  (* the bounds stored by setBounds *)
  left : A;
  top : A;
  right : A;
  bottom : A
}.
Arguments mk {A} _ _ _ _ _ _ _ _.
Arguments id {A} _.
Arguments x {A} _.
Arguments y {A} _.
Arguments radius {A} _.
Arguments left {A} _.
Arguments top {A} _.
Arguments right {A} _.
Arguments bottom {A} _.
End Circle.

Section CircleClass.

Context {A : Type} `{Number A}.
Local Open Scope js_scope.

(** Modelled from the spec: TSMT$Circle.setBounds (libs/circle.ts is not
    among the sources) records the rectangle the quadrants are taken in. *)
Definition Circle_setBounds (c : Circle.t A) (left top right bottom : A)
  : Circle.t A :=
  Circle.mk (Circle.id c) (Circle.x c) (Circle.y c) (Circle.radius c)
            left top right bottom.

(** Modelled from the spec: TSMT$Circle.inQuadrant (libs/circle.ts is not
    among the sources).  "A circle's bounding box (center +- radius square)
    intersecting a quadrant's rectangle places that circle's id in that
    quadrant's set"; the quadrants are those of the classifier: 1 is the
    right, near-top quarter of the bounds, 2 right and near-bottom, 3 left
    and near-bottom, 4 left and near-top, in either y-sense, every
    comparison inclusive. *)
Definition Circle_inQuadrant (c : Circle.t A) (quad : Z) : bool :=
  let xc := lit 0.5 * (Circle.left c + Circle.right c) in
  let yc := lit 0.5 * (Circle.bottom c + Circle.top c) in
  let yDown := Circle.top c <=? Circle.bottom c in
  (* the bounding square of the circle *)
  let xmin := Circle.x c - Circle.radius c in
  let xmax := Circle.x c + Circle.radius c in
  let ymin := Circle.y c - Circle.radius c in
  let ymax := Circle.y c + Circle.radius c in
  let xgt := (xmax >=? xc) && (xmin <=? Circle.right c) in
  let xlt := (xmin <=? xc) && (xmax >=? Circle.left c) in
  let yhigh := if yDown then (ymin <=? yc) && (ymax >=? Circle.top c)
               else (ymax >=? yc) && (ymin <=? Circle.top c) in
  let ylow := if yDown then (ymax >=? yc) && (ymin <=? Circle.bottom c)
              else (ymin <=? yc) && (ymax >=? Circle.bottom c) in
  match quad with
  | 1%Z => xgt && yhigh
  | 2%Z => xgt && ylow
  | 3%Z => xlt && ylow
  | 4%Z => xlt && yhigh
  | _ => false
  end.

End CircleClass.

(** ** pic-canvas.directive.ts *)

(** The simulation state of [PicCanvasDirective]; the display objects are
    left out.  [_check] is undefined until a quadrant has been entered. *)
Record PicCanvasDirective (A : Type) : Type := mkDirective {
  _width : A;
  _height : A;
  _circleRefs : list (Circle.t A);
  _identified : list (Circle.t A);
  _px : A;
  _py : A;
  _curQuad : Z;
  _prevQuad : Z;
  _check : option (list string);
  _quad1 : JsRecord;
  _quad2 : JsRecord;
  _quad3 : JsRecord;
  _quad4 : JsRecord
}.
Arguments mkDirective {A} _ _ _ _ _ _ _ _ _ _ _ _ _.
Arguments _width {A} _.
Arguments _height {A} _.
Arguments _circleRefs {A} _.
Arguments _identified {A} _.
Arguments _px {A} _.
Arguments _py {A} _.
Arguments _curQuad {A} _.
Arguments _prevQuad {A} _.
Arguments _check {A} _.
Arguments _quad1 {A} _.
Arguments _quad2 {A} _.
Arguments _quad3 {A} _.
Arguments _quad4 {A} _.

(** What one call of [next] does with the circles: the ids it ran
    TSMT$PointInCircle on, and the ids it passed to onIntersect.emit, both
    in order. *)
Record StepLog : Type := mkLog {
  tested : list string;
  emitted : list string
}.

Section Directive.

Context {A : Type} `{Number A}.
Local Open Scope js_scope.

(** the constructor followed by the first lines of ngOnInit, which read the
    size of the container and put the point at its centre *)
Definition ngOnInit_start (clientWidth clientHeight : A) : PicCanvasDirective A :=
  mkDirective clientWidth clientHeight [] []
    (Math_round (lit 0.5 * clientWidth)) (Math_round (lit 0.5 * clientHeight))
    0%Z (-1)%Z None [] [] [] [].

(** the dynamic lookup [this[`_quad${n}`]] *)
Definition quad_property (s : PicCanvasDirective A) (n : Z) : option JsRecord :=
  match n with
  | 1%Z => Some (_quad1 s)
  | 2%Z => Some (_quad2 s)
  | 3%Z => Some (_quad3 s)
  | 4%Z => Some (_quad4 s)
  | _ => None
  end.

(** one iteration of the loop of __initCircles, for the circle of index [i]
    with the drawn centre (x, y) and radius r *)
Definition initCircles_body (i : nat) (xyr : A * A * A)
  (s : PicCanvasDirective A) : PicCanvasDirective A :=
  let '(x, y, r) := xyr in
  let c := Circle.mk (Number_toString i) x y r (lit 0) (lit 0) (lit 0) (lit 0) in
  (* update quadrant(s) for the circle; this requires bounds to be set *)
  let c := Circle_setBounds c (lit 0) (lit 0) (_width s) (_height s) in
  let q1 := if Circle_inQuadrant c 1 then JsRecord_set (_quad1 s) (Circle.id c) true
            else _quad1 s in
  let q2 := if Circle_inQuadrant c 2 then JsRecord_set (_quad2 s) (Circle.id c) true
            else _quad2 s in
  let q3 := if Circle_inQuadrant c 3 then JsRecord_set (_quad3 s) (Circle.id c) true
            else _quad3 s in
  let q4 := if Circle_inQuadrant c 4 then JsRecord_set (_quad4 s) (Circle.id c) true
            else _quad4 s in
  mkDirective (_width s) (_height s) (_circleRefs s ++ [c]) (_identified s)
    (_px s) (_py s) (_curQuad s) (_prevQuad s) (_check s) q1 q2 q3 q4.

(** [for (i = ...; i < ...; ++i)] with [n] iterations left; [draws i] is
    what the three calls of RandomIntInRange.generateInRange return in
    iteration [i] *)
Fixpoint initCircles_loop (draws : nat -> A * A * A) (n i : nat)
  (s : PicCanvasDirective A) : PicCanvasDirective A :=
  match n with
  | O => s
  | S n' => initCircles_loop draws n' (S i) (initCircles_body i (draws i) s)
  end.

Definition __initCircles (draws : nat -> A * A * A) (s : PicCanvasDirective A)
  : PicCanvasDirective A :=
  initCircles_loop draws CircleService.NUM_CIRCLES 0 s.

Definition ngOnInit (clientWidth clientHeight : A) (draws : nat -> A * A * A)
  : PicCanvasDirective A :=
  __initCircles draws (ngOnInit_start clientWidth clientHeight).

(** [this._check.forEach(...)]: [None] is the TypeError of reading a
    property of an undefined circle *)
Fixpoint check_forEach (px py : A) (refs : list (Circle.t A)) (ids : list string)
  (identified : list (Circle.t A)) (log : StepLog)
  : option (list (Circle.t A) * StepLog) :=
  match ids with
  | [] => Some (identified, log)
  | id :: rest =>
      match option_map (fun i => nth_error refs i) (index_of_id id) with
      | Some (Some circ) =>
          if TSMT_PointInCircle px py (Circle.x circ) (Circle.y circ) (Circle.radius circ)
          then check_forEach px py refs rest (identified ++ [circ])
                 (mkLog (tested log ++ [id]) (emitted log ++ [id]))
          else check_forEach px py refs rest identified
                 (mkLog (tested log ++ [id]) (emitted log))
      | _ => None
      end
  end.

(** Advance the simulation one step; [u] and [t] are the two random numbers
    the walk of the point consumes.  [None] is a TypeError. *)
Definition next (u t : A) (s : PicCanvasDirective A)
  : option (PicCanvasDirective A * StepLog) :=
  (* the circles marked in the previous step are redrawn and popped *)
  let identified := @nil (Circle.t A) in
  let '(px, py) := pointRandomWalk (_px s) (_py s)
                     (lit CircleService.LOW_RADIUS) (lit CircleService.HIGH_RADIUS) u t in
  let curQuad := TSMT_getQuadrant px py (lit 0) (lit 0) (_width s) (_height s) in
  (* only check circles in the quad in which the point is located *)
  if (0 <? curQuad)%Z && (curQuad <? 5)%Z then
    (* only update the id list if the quadrant changed *)
    let prevQuad := if negb (curQuad =? _prevQuad s)%Z then curQuad else _prevQuad s in
    let check := if negb (curQuad =? _prevQuad s)%Z
                 then option_map Object_keys (quad_property s curQuad)
                 else _check s in
    match check with
    | None => None
    | Some ids =>
        match check_forEach px py (_circleRefs s) ids identified (mkLog [] []) with
        | None => None
        | Some (identified', log) =>
            Some (mkDirective (_width s) (_height s) (_circleRefs s) identified'
                    px py curQuad prevQuad (Some ids)
                    (_quad1 s) (_quad2 s) (_quad3 s) (_quad4 s), log)
        end
    end
  else
    Some (mkDirective (_width s) (_height s) (_circleRefs s) identified
            px py curQuad (_prevQuad s) (_check s)
            (_quad1 s) (_quad2 s) (_quad3 s) (_quad4 s), mkLog [] []).

End Directive.

(** ** Further builtins of the source *)

(** the global [isFinite] *)
Class Finite (A : Type) : Type := {
  isFinite : A -> bool
}.

(** [Math.PI] and [Math.cos], read at [R] only *)
Class Circular (A : Type) : Type := {
  Math_PI : A;
  Math_cos : A -> A
}.

#[export] Instance float_Finite : Finite float := {|
  isFinite := fun x =>
    match PrimFloat.classify x with
    | FloatClass.PInf | FloatClass.NInf | FloatClass.NaN => false
    | _ => true
    end
|}.

#[export] Instance R_Finite : Finite R := {|
  isFinite := fun _ => true
|}.

#[export] Instance R_Circular : Circular R := {|
  Math_PI := PI;
  Math_cos := cos
|}.

(** ** circle-util-functions.ts, the remaining functions *)

(** the result of TSMT$CircleSectorParams *)
Module Sector.
Record t (A : Type) : Type := mk { area : A; len : A; perim : A }.
Arguments mk {A} _ _ _.
Arguments area {A} _.
Arguments len {A} _.
Arguments perim {A} _.
End Sector.

(** the result of TSMT$CircleInscribedTriangleProps *)
Module InscribedTriangle.
Record t (A : Type) : Type := mk { s : A; area : A }.
Arguments mk {A} _ _.
Arguments s {A} _.
Arguments area {A} _.
End InscribedTriangle.

Section CircleUtilMore.

Context {A : Type} `{Number A}.
Local Open Scope js_scope.

(** Area of the circle with the given radius *)
Definition TSMT_CircleArea `{Circular A} (r : A) : A :=
  if isNaN r || (r <? lit 0) then lit 0 else Math_PI * r * r.

(** Circumference of the circle with the given radius, or zero for an
    invalid radius *)
Definition TSMT_CircleCircumference `{Circular A} (r : A) : A :=
  let twoPI := Math_PI + Math_PI in
  if isNaN r || (r <? lit 0) then lit 0 else twoPI * r.

(** Length of a circular arc with the given angular measure *)
Definition TSMT_CircleArcLength (r t : A) : A :=
  let radius := if isNaN r || (r <? lit 0) then lit 0 else r in
  let theta := if isNaN t then lit 0 else t in
  Math_abs (radius * theta).

(** Properties of a circular sector defined by a central angle *)
Definition TSMT_CircleSectorParams (radius theta : A) : Sector.t A :=
  let r := if isNaN radius || (radius <? lit 0) then lit 0.0 else radius in
  let t := if isNaN theta then lit 0 else Math_abs theta in
  let len := r * t in
  Sector.mk (lit 0.5 * r * len) len (r * (t + lit 2)).

(** Coordinates of the point at angle theta on the circle *)
Definition TSMT_CircleGetCoords `{Trig A} `{Circular A}
  (xc yc radius theta : A) : XY.t A :=
  let r := if isNaN radius || (radius <? lit 0) then lit 0.05 else radius in
  let t := if isNaN theta then lit 0 else theta in
  let x := if isNaN xc then lit 0 else xc in
  let y := if isNaN yc then lit 0 else yc in
  XY.mk (r * Math_cos t + x) (r * Math_sin t + y).

(** Side of the largest rectangle (a square) inscribed in a circle *)
Definition TSMT_CircleInscribedRectProps (radius : A) : A :=
  let r := if isNaN radius || (radius <? lit 0) then lit 0 else radius in
  let d := r + r in
  d / Math_sqrt (lit 2).

(** Side and area of the equilateral triangle inscribed in a circle *)
Definition TSMT_CircleInscribedTriangleProps (radius : A) : InscribedTriangle.t A :=
  let r := if isNaN radius || (radius <? lit 0) then lit 0 else radius in
  let s := r * Math_sqrt (lit 3) in
  let a := lit 0.25 * Math_sqrt (lit 3) * s * s in
  InscribedTriangle.mk s a.

(** Circle-circle intersection, with its arguments checked *)
Definition TSMT_CircleCircleIntersection `{Finite A}
  (xc1 yc1 r1 xc2 yc2 r2 : A) : list (XY.t A) :=
  if isNaN xc1 || negb (isFinite xc1) then []
  else if isNaN yc1 || negb (isFinite yc1) then []
  else if isNaN r1 || (r1 <=? lit 0) then []
  else if isNaN xc2 || negb (isFinite xc2) then []
  else if isNaN yc2 || negb (isFinite yc2) then []
  else if isNaN r2 || (r2 <=? lit 0) then []
  else TSMT_CircleToCircleIntersection xc1 yc1 r1 xc2 yc2 r2.

(** The "tangent points" to a circle from a point P *)
Definition TSMT_CircleTangentsFromPoint `{Finite A} (xc yc r px py : A)
  : list (XY.t A) :=
  let dx := px - xc in
  let dy := py - yc in
  let d := Math_sqrt (dx * dx + dy * dy) in
  if (d <=? r) || (r <=? lit 0) then []
  else
    (* the circle-circle intersection with a second circle at (px,py) of
       radius d *)
    TSMT_CircleCircleIntersection xc yc r px py d.

End CircleUtilMore.

(** ** geom/Point.ts *)

(** A [TSMT$Point]: the coordinates and the cached Euclidean norm *)
Module Point.

Record t (A : Type) : Type := mk {
  _x : A;
  _y : A;
  _invalidated : bool;
  _norm : A
}.
Arguments mk {A} _ _ _ _.
Arguments _x {A} _.
Arguments _y {A} _.
Arguments _invalidated {A} _.
Arguments _norm {A} _.

Section Methods.

Context {A : Type} `{Number A} `{Finite A}.
Local Open Scope js_scope.

(** [length()]: the norm, recomputed if the cache is invalid; returns the
    value and the object after the call *)
Definition length (p : t A) : A * t A :=
  if _invalidated p then
    let n := Math_sqrt (_x p * _x p + _y p * _y p) in
    (n, mk (_x p) (_y p) false n)
  else (_norm p, p).

(** [new TSMT$Point(x, y)]: the constructor stores the coordinates as they
    are, marks the cache invalid and calls [length()] *)
Definition new (x y : A) : t A :=
  let p := mk x y true (lit 0) in
  let '(n, p') := length p in
  mk (_x p') (_y p') (_invalidated p') n.

Definition clone (p : t A) : t A := new (_x p) (_y p).

(** the getters *)
Definition x (p : t A) : A := _x p.
Definition y (p : t A) : A := _y p.

(** [__assign] on a value of type number *)
Definition __assign (value : A) : A :=
  if negb (isNaN value) && isFinite value then value else lit 0.

(** the setters *)
Definition set_x (p : t A) (value : A) : t A :=
  mk (__assign value) (_y p) true (_norm p).

Definition set_y (p : t A) (value : A) : t A :=
  mk (_x p) (__assign value) true (_norm p).

Definition l1Norm (p : t A) : A := Math_abs (_x p) + Math_abs (_y p).

Definition lInfNorm (p : t A) : A :=
  let absX := Math_abs (_x p) in
  let absY := Math_abs (_y p) in
  Math_max absX absY.

Definition distance (p point : t A) : A :=
  let dx := x point - _x p in
  let dy := y point - _y p in
  Math_sqrt (dx * dx + dy * dy).

Definition dot (p point : t A) : A := _x p * x point + _y p * y point.

Definition cross (p point : t A) : A := _x p * y point - _y p * x point.

(** the calls a client can make on a point *)
Inductive call : Type :=
| SetX (value : A)
| SetY (value : A)
| Length.

Definition perform (p : t A) (c : call) : t A :=
  match c with
  | SetX v => set_x p v
  | SetY v => set_y p v
  | Length => snd (length p)
  end.

End Methods.
End Point.

(** ** circle-util-functions.ts: gaps between two circles *)

(** the result of TSMT$CircleGaps *)
Module Gaps.
Record t (A : Type) : Type := mk {
  min : A; minX : A; minY : A;
  max : A; maxX : A; maxY : A
}.
Arguments mk {A} _ _ _ _ _ _.
Arguments min {A} _.
Arguments minX {A} _.
Arguments minY {A} _.
Arguments max {A} _.
Arguments maxX {A} _.
Arguments maxY {A} _.
End Gaps.

Section CircleGaps.

Context {A : Type} `{Number A} `{Finite A}.
Local Open Scope js_scope.

(** the four compared distances and the updates of the running minimum, on
    the four points of the line through the centres *)
Definition Gaps_select (outer1 outer2 inner1 inner2 : Point.t A) : Gaps.t A :=
  let minX := Point.x outer1 in
  let minY := Point.y outer1 in
  let maxX := Point.x outer1 in
  let maxY := Point.y outer1 in
  let dist := Point.distance outer1 inner1 in
  let minDist := dist in
  let maxDist := dist in
  let dist := Point.distance outer1 inner2 in
  let '(minDist, minX, minY, maxDist, maxX, maxY) :=
    if dist <? minDist
    then (dist, Point.x outer1, Point.y outer1,
          Point.distance outer2 inner2, Point.x outer2, Point.y outer2)
    else (minDist, minX, minY, maxDist, maxX, maxY) in
  let dist := Point.distance outer2 inner1 in
  let '(minDist, minX, minY, maxDist, maxX, maxY) :=
    if dist <? minDist
    then (dist, Point.x outer2, Point.y outer2,
          Point.distance inner2 outer1, Point.x outer1, Point.y outer1)
    else (minDist, minX, minY, maxDist, maxX, maxY) in
  let dist := Point.distance outer2 inner2 in
  let '(minDist, minX, minY, maxDist, maxX, maxY) :=
    if dist <? minDist
    then (dist, Point.x outer2, Point.y outer2,
          Point.distance inner1 outer1, Point.x outer1, Point.y outer1)
    else (minDist, minX, minY, maxDist, maxX, maxY) in
  Gaps.mk minDist minX minY maxDist maxX maxY.

(** Min/max gaps between a circle (c, d, r2) inside a larger circle
    (a, b, r1).  The outer [option] is [None] for the TypeError of reading
    'x' of an undefined array element; [Some None] is the returned null. *)
Definition TSMT_CircleGaps (a b r1 c d r2 : A) : option (option (Gaps.t A)) :=
  if isNaN a || negb (isFinite a) || isNaN b || negb (isFinite b) then Some None
  else if isNaN c || negb (isFinite c) || isNaN d || negb (isFinite d) then Some None
  else if (r1 <=? lit 0) || (r2 <=? lit 0) || (r1 <=? r2) then Some None
  else
    let outerPoints := TSMT_CircleSegmentIntersection a b c d a b r1 in
    match outerPoints with
    | [] => Some None
    | _ =>
        let innerPoints := TSMT_CircleSegmentIntersection a b c d c d r2 in
        match nth_error outerPoints 0, nth_error outerPoints 1,
              nth_error innerPoints 0, nth_error innerPoints 1 with
        | Some p0, Some p1, Some q0, Some q1 =>
            let outer1 := Point.new (XY.x p0) (XY.y p0) in
            let outer2 := Point.new (XY.x p1) (XY.y p1) in
            let inner1 := Point.new (XY.x q0) (XY.y q0) in
            let inner2 := Point.new (XY.x q1) (XY.y q1) in
            Some (Some (Gaps_select outer1 outer2 inner1 inner2))
        | _, _, _, _ => None
        end
    end.

End CircleGaps.

(** ** render/svg-render/pic-svg-directive.ts *)

(** [arr[i] = v] for an index inside the array *)
Fixpoint list_set {X : Type} (l : list X) (i : nat) (v : X) : list X :=
  match l, i with
  | [], _ => []
  | _ :: l', O => v :: l'
  | x :: l', S i' => x :: list_set l' i' v
  end.

Module Svg.

(** The simulation state of [PicSvgDirective]; the display objects are left
    out. *)
Record t (A : Type) : Type := mk {
  _circleRefs : list (Circle.t A);
  _identified : list (Circle.t A);
  _width : A;
  _height : A;
  _px : A;
  _py : A
}.
Arguments mk {A} _ _ _ _ _ _.
Arguments _circleRefs {A} _.
Arguments _identified {A} _.
Arguments _width {A} _.
Arguments _height {A} _.
Arguments _px {A} _.
Arguments _py {A} _.

Section Methods.

Context {A : Type} `{Number A}.
Local Open Scope js_scope.

(** the constructor followed by the first lines of ngOnInit *)
Definition ngOnInit_start (clientWidth clientHeight : A) : t A :=
  mk [] [] clientWidth clientHeight
     (Math_round (lit 0.5 * clientWidth)) (Math_round (lit 0.5 * clientHeight)).

(** [for (i = ...; i < ...; ++i)] of __initCircles with [n] iterations
    left; [fresh] is what [new TSMT$Circle()] returns (libs/circle.ts is not
    among the sources), [draws i] what the three calls of
    RandomIntInRange.generateInRange return in iteration [i] *)
Fixpoint initCircles_loop (fresh : Circle.t A) (draws : nat -> A * A * A)
  (n i : nat) (s : t A) : t A :=
  match n with
  | O => s
  | S n' =>
      let '(x, y, r) := draws i in
      let c := Circle.mk (Number_toString i) x y r
                 (Circle.left fresh) (Circle.top fresh)
                 (Circle.right fresh) (Circle.bottom fresh) in
      initCircles_loop fresh draws n' (S i)
        (mk (_circleRefs s ++ [c]) (_identified s) (_width s) (_height s)
            (_px s) (_py s))
  end.

Definition __initCircles (fresh : Circle.t A) (draws : nat -> A * A * A)
  (s : t A) : t A :=
  initCircles_loop fresh draws CircleService.NUM_CIRCLES 0 s.

Definition ngOnInit (clientWidth clientHeight : A) (fresh : Circle.t A)
  (draws : nat -> A * A * A) : t A :=
  __initCircles fresh draws (ngOnInit_start clientWidth clientHeight).

(** the loop that lets about a fifth of the circles move; [rnd k] is the
    value of the k-th call of Math.random(), [k] the number of calls made
    so far.  [None] is the TypeError of reading a property of an undefined
    circle. *)
Fixpoint move_loop (rnd : nat -> A) (n i k : nat) (refs : list (Circle.t A))
  : option (list (Circle.t A) * nat) :=
  match n with
  | O => Some (refs, k)
  | S n' =>
      if rnd k <=? lit 0.2 then
        match nth_error refs i with
        | None => None
        | Some circ =>
            let '(x, y) := pointRandomWalk (Circle.x circ) (Circle.y circ)
                             (lit CircleService.LOW_R) (lit CircleService.HIGH_R)
                             (rnd (S k)) (rnd (S (S k))) in
            let circ' := Circle.mk (Circle.id circ) x y (Circle.radius circ)
                           (Circle.left circ) (Circle.top circ)
                           (Circle.right circ) (Circle.bottom circ) in
            move_loop rnd n' (S i) (S (S (S k))) (list_set refs i circ')
        end
      else move_loop rnd n' (S i) (S k) refs
  end.

(** the loop that checks each circle *)
Fixpoint scan_loop (px py : A) (refs : list (Circle.t A)) (n i : nat)
  (identified : list (Circle.t A)) (emitted : list string)
  : option (list (Circle.t A) * list string) :=
  match n with
  | O => Some (identified, emitted)
  | S n' =>
      match nth_error refs i with
      | None => None
      | Some circ =>
          if TSMT_PointInCircle px py (Circle.x circ) (Circle.y circ) (Circle.radius circ)
          then scan_loop px py refs n' (S i) (identified ++ [circ])
                 (emitted ++ [Circle.id circ])
          else scan_loop px py refs n' (S i) identified emitted
      end
  end.

(** Advance the simulation a single step: the new state, the ids passed to
    onIntersect.emit in order, and the number of calls of Math.random()
    made.  The walk of the point is given [_px] for both coordinates, as in
    the source. *)
Definition next (rnd : nat -> A) (k : nat) (s : t A)
  : option (t A * list string * nat) :=
  let identified := @nil (Circle.t A) in
  let '(px, py) := pointRandomWalk (_px s) (_px s)
                     (lit CircleService.LOW_RADIUS) (lit CircleService.HIGH_RADIUS)
                     (rnd k) (rnd (S k)) in
  match move_loop rnd CircleService.NUM_CIRCLES 0 (S (S k)) (_circleRefs s) with
  | None => None
  | Some (refs, k') =>
      match scan_loop px py refs CircleService.NUM_CIRCLES 0 identified [] with
      | None => None
      | Some (identified', emitted) =>
          Some (mk refs identified' (_width s) (_height s) px py, emitted, k')
      end
  end.

End Methods.
End Svg.

(** ** The statements' vocabulary *)

(** the comparison TSMT$PointInCircle makes after its two bounding-box
    tests *)
Definition distance_test (px py xc yc r : R) : bool :=
  Rleb ((px - xc) * (px - xc) + (py - yc) * (py - yc)) (r * r).

(** The quadrants of a rectangle, in the words of the specification. *)
Module Region.
Section Region.

Variables (px py left top right bottom : R).
Local Open Scope R_scope.

(** the point lies in the closed rectangle, in either y-sense *)
Definition in_rect : Prop :=
  left <= px <= right /\ Rmin top bottom <= py <= Rmax top bottom.

Definition xmid : R := (left + right) / 2.
Definition ymid : R := (top + bottom) / 2.

Definition right_half : Prop := xmid <= px <= right.
Definition left_half : Prop := left <= px <= xmid.

(** the half next to [top], whichever of [top] and [bottom] is larger *)
Definition near_top : Prop :=
  (top <= bottom /\ top <= py <= ymid) \/ (bottom < top /\ ymid <= py <= top).

Definition near_bottom : Prop :=
  (top <= bottom /\ ymid <= py <= bottom) \/ (bottom < top /\ bottom <= py <= ymid).

(** the closed quarter of the rectangle with the given number *)
Definition in_quadrant (q : Z) : Prop :=
  match q with
  | 1%Z => right_half /\ near_top
  | 2%Z => right_half /\ near_bottom
  | 3%Z => left_half /\ near_bottom
  | 4%Z => left_half /\ near_top
  | _ => False
  end.

End Region.
End Region.

(** The point [next] moves to, and its quadrant in the container. *)
Section StepVocabulary.

Context {A : Type} `{Number A}.

Definition walk (s : PicCanvasDirective A) (u t : A) : A * A :=
  pointRandomWalk (_px s) (_py s)
    (lit CircleService.LOW_RADIUS) (lit CircleService.HIGH_RADIUS) u t.

Definition quadrant_at (s : PicCanvasDirective A) (P : A * A) : Z :=
  TSMT_getQuadrant (fst P) (snd P) (lit 0) (lit 0) (_width s) (_height s).

(** the id names an element of the array of circles *)
Definition valid_id (refs : list (Circle.t A)) (id : string) : Prop :=
  exists i c, index_of_id id = Some i /\ nth_error refs i = Some c.

(** what [__initCircles] establishes and [next] keeps: every id of the
    quad-map and of the cached list names a circle, and the cached list is
    defined once a quadrant has been entered *)
Definition well_formed (s : PicCanvasDirective A) : Prop :=
  (forall q b, quad_property s q = Some b ->
      Forall (valid_id (_circleRefs s)) (Object_keys b))
  /\ (forall ids, _check s = Some ids -> Forall (valid_id (_circleRefs s)) ids)
  /\ ((1 <= _prevQuad s <= 4)%Z -> _check s <> None).

(** the circles and the quad-map are those of [s0] *)
Definition same_circles (s0 s : PicCanvasDirective A) : Prop :=
  _circleRefs s = _circleRefs s0
  /\ _width s = _width s0 /\ _height s = _height s0
  /\ forall q, quad_property s q = quad_property s0 q.

(** the circle created in iteration [i] *)
Definition new_circle (w h : A) (i : nat) (xyr : A * A * A) : Circle.t A :=
  Circle.mk (Number_toString i) (fst (fst xyr)) (snd (fst xyr)) (snd xyr)
            (lit 0) (lit 0) w h.

(** the circles stand at their index, carry the bounds of the container,
    and are listed in every bucket whose quadrant they are in *)
Definition indexed (s : PicCanvasDirective A) : Prop :=
  forall k c, nth_error (_circleRefs s) k = Some c ->
    Circle.id c = Number_toString k
    /\ Circle.left c = lit 0 /\ Circle.top c = lit 0
    /\ Circle.right c = _width s /\ Circle.bottom c = _height s
    /\ forall q b, quad_property s q = Some b -> Circle_inQuadrant c q = true ->
         In (Circle.id c) (Object_keys b).

(** the states and logs of a run, one entry per step *)
Fixpoint trace (rnd : list (A * A)) (s : PicCanvasDirective A)
  : option (list (PicCanvasDirective A * StepLog)) :=
  match rnd with
  | [] => Some []
  | (u, t) :: rnd' =>
      match next u t s with
      | None => None
      | Some (s', log) =>
          match trace rnd' s' with
          | None => None
          | Some tr => Some ((s', log) :: tr)
          end
      end
  end.

(** the step recorded in [e] is the loop over [ids] at the point of [e] *)
Definition tests (refs : list (Circle.t A)) (ids : list string)
  (e : PicCanvasDirective A * StepLog) : Prop :=
  check_forEach (_px (fst e)) (_py (fst e)) refs ids [] (mkLog [] [])
  = Some (_identified (fst e), snd e).

(** the directive a run ends in *)
Definition final (s : PicCanvasDirective A)
  (tr : list (PicCanvasDirective A * StepLog)) : PicCanvasDirective A :=
  last (List.map fst tr) s.

End StepVocabulary.

(** Euclidean distance, and the points of a circle *)
Definition dist (x0 y0 x1 y1 : R) : R :=
  sqrt ((x1 - x0) * (x1 - x0) + (y1 - y0) * (y1 - y0)).

Definition on_circle (p : XY.t R) (xc yc r : R) : Prop :=
  dist xc yc (XY.x p) (XY.y p) = r.

(** the two circles coincide within the tolerance of
    TSMT$CircleToCircleIntersection *)
Definition within_tolerance (x0 y0 r0 x1 y1 r1 : R) : Prop :=
  (dist x0 y0 x1 y1 < 0.001 /\ Rabs (r1 - r0) < 0.001)%R.

(** binary64 values by their IEEE-754 class *)
Definition NaN64 (x : float) : Prop :=
  FloatOps.Prim2SF x = SpecFloat.S754_nan.

Definition zero_or_NaN64 (x : float) : Prop :=
  NaN64 x \/ exists s, FloatOps.Prim2SF x = SpecFloat.S754_zero s.

(** the projection parameter [t] of TSMT$CircleSegmentIntersection *)
Definition Segment_projection {A : Type} `{Number A} (x1 y1 x2 y2 xc yc : A) : A :=
  (((xc - x1) * (x2 - x1) + (yc - y1) * (y2 - y1))
   / ((x2 - x1) * (x2 - x1) + (y2 - y1) * (y2 - y1)))%js.

(** ** Vocabulary of the statements about the rest of the code *)

(** the distance from (xc, yc) to the line through (x1, y1) and (x2, y2) *)
Definition line_dist (x1 y1 x2 y2 xc yc : R) : R :=
  (Rabs ((xc - x1) * (y2 - y1) - (yc - y1) * (x2 - x1))
   / sqrt ((x2 - x1) * (x2 - x1) + (y2 - y1) * (y2 - y1)))%R.

(** the point lies on the line through (x1, y1) and (x2, y2) *)
Definition on_line (p : XY.t R) (x1 y1 x2 y2 : R) : Prop :=
  ((XY.x p - x1) * (y2 - y1) - (XY.y p - y1) * (x2 - x1) = 0)%R.

(** unless a point is marked invalid, its cached norm is the norm of its
    coordinates *)
Definition Point_coherent {A : Type} `{Number A} (p : Point.t A) : Prop :=
  Point._invalidated p = false ->
  Point._norm p
  = Math_sqrt (Point._x p * Point._x p + Point._y p * Point._y p)%js.

Section CircleLookup.

Context {A : Type} `{Number A}.

(** the circle an id names, [this._circleRefs[+id]] *)
Definition circle_at (refs : list (Circle.t A)) (id : string) : option (Circle.t A) :=
  match index_of_id id with
  | Some i => nth_error refs i
  | None => None
  end.

(** the point is inside the circle, by TSMT$PointInCircle *)
Definition contains (px py : A) (c : Circle.t A) : bool :=
  TSMT_PointInCircle px py (Circle.x c) (Circle.y c) (Circle.radius c).

(** the id names a circle that contains the point *)
Definition hit (px py : A) (refs : list (Circle.t A)) (id : string) : bool :=
  match circle_at refs id with
  | Some c => contains px py c
  | None => false
  end.

(** the circles a list of ids names, in order *)
Definition circles_of (refs : list (Circle.t A)) (ids : list string)
  : list (Circle.t A) :=
  flat_map (fun id => match circle_at refs id with Some c => [c] | None => [] end) ids.

(** the cached list of [s] is the key list that the bucket of [_prevQuad]
    has in [s0]; before any quadrant has been entered there is none *)
Definition cache_coherent (s0 s : PicCanvasDirective A) : Prop :=
  (_prevQuad s = (-1)%Z /\ _check s = None)
  \/ ((1 <= _prevQuad s <= 4)%Z
      /\ _check s = option_map Object_keys (quad_property s0 (_prevQuad s))).

(** a recorded step [e] left a coherent cache, a quadrant in 0..4, and
    tested the keys of the bucket of its quadrant, or nothing in quadrant 0 *)
Definition step_coherent (s0 : PicCanvasDirective A)
  (e : PicCanvasDirective A * StepLog) : Prop :=
  cache_coherent s0 (fst e)
  /\ (0 <= _curQuad (fst e) <= 4)%Z
  /\ ((1 <= _curQuad (fst e) <= 4)%Z ->
        _prevQuad (fst e) = _curQuad (fst e)
        /\ Some (tested (snd e))
           = option_map Object_keys (quad_property s0 (_curQuad (fst e))))
  /\ (_curQuad (fst e) = 0%Z -> tested (snd e) = []).

End CircleLookup.

(** the keys of a bucket are the ids of an increasing list of indices
    below [i] *)
Definition ascending_ids (i : nat) (o : JsRecord) : Prop :=
  exists idx : list nat,
    Object_keys o = List.map Number_toString idx
    /\ StronglySorted lt idx /\ Forall (fun k => (k < i)%nat) idx.

(** ** Inputs of the examples *)

(** a decimal literal read in binary64 *)
Definition f64 (q : Q) : float := lit q.

(** a directive of a 100 x 100 container whose point stands right of the
    container, with one circle that reaches beyond the right edge *)
Definition protruding_circle : Circle.t float :=
  Circle.mk "0" (f64 95) (f64 50) (f64 20) (f64 0) (f64 0) (f64 100) (f64 100).

Definition directive_example : PicCanvasDirective float :=
  mkDirective (f64 100) (f64 100) [protruding_circle] []
    (f64 105) (f64 50) 0%Z (-1)%Z None
    [("0"%string, true)] [("0"%string, true)] [] [].

(** a single draw, used for every circle: centre (75, 25), radius 10 *)
Definition draws_example (_ : nat) : R * R * R := (75%R, 25%R, 10%R).

(** an SVG directive of a 200 x 200 container after ngOnInit, all circles
    drawn with centre (100, 100) and radius 10, in binary64 and over the
    reals *)
Definition svg_example : Svg.t float :=
  Svg.ngOnInit (f64 200) (f64 200)
    (Circle.mk "" (f64 0) (f64 0) (f64 0) (f64 0) (f64 0) (f64 0) (f64 0))
    (fun _ => (f64 100, f64 100, f64 10)).

Definition svg_example_R : Svg.t R :=
  Svg.ngOnInit 200%R 200%R
    (Circle.mk "" 0%R 0%R 0%R 0%R 0%R 0%R 0%R)
    (fun _ => (100%R, 100%R, 10%R)).

(** a source of random numbers that always returns one half *)
Definition always_half (_ : nat) : float := f64 0.5.

Definition always_half_R (_ : nat) : R := (1 / 2)%R.

(** ** Reasoning at the exact instance *)

Lemma Rltb_true (x y : R) : Rltb x y = true <-> (x < y)%R.
Proof. unfold Rltb; destruct (Rlt_dec x y); split; intros; try lra; discriminate. Qed.

Lemma Rleb_true (x y : R) : Rleb x y = true <-> (x <= y)%R.
Proof. unfold Rleb; destruct (Rle_dec x y); split; intros; try lra; discriminate. Qed.

Lemma Reqb_true (x y : R) : Reqb x y = true <-> x = y.
Proof. unfold Reqb; destruct (Req_dec_T x y); split; intros; try lra; discriminate. Qed.

Lemma Rltb_false (x y : R) : Rltb x y = false <-> (y <= x)%R.
Proof. unfold Rltb; destruct (Rlt_dec x y); split; intros; try lra; discriminate. Qed.

Lemma Rleb_false (x y : R) : Rleb x y = false <-> (y < x)%R.
Proof. unfold Rleb; destruct (Rle_dec x y); split; intros; try lra; discriminate. Qed.

(** unfold the interface at [R] *)
Ltac js_R :=
  cbn [lit nadd nsub nmul ndiv Math_sqrt Math_abs Math_max Math_min Math_round
       nltb nleb neqb isNaN R_Number Math_acos Math_sin R_Trig] in *.

(** decide every comparison of the goal *)
Ltac cmp_cases :=
  unfold Rltb, Rleb, Reqb in *;
  repeat match goal with
         | |- context [Rlt_dec ?x ?y] => destruct (Rlt_dec x y)
         | |- context [Rle_dec ?x ?y] => destruct (Rle_dec x y)
         | |- context [Req_dec_T ?x ?y] => destruct (Req_dec_T x y)
         end;
  cbn [orb andb negb] in *.

(** the squared form of "distance at most r" *)
Lemma dist_le_sq (dx dy r : R) :
  (0 <= r)%R -> (sqrt (dx * dx + dy * dy) <= r <-> dx * dx + dy * dy <= r * r)%R.
Proof.
  intros Hr.
  assert (Hs : (0 <= dx * dx + dy * dy)%R) by nra.
  split; intros Hle.
  - pose proof (sqrt_pos (dx * dx + dy * dy)) as Hp.
    rewrite <- (sqrt_sqrt _ Hs). nra.
  - rewrite <- (sqrt_square r Hr). apply sqrt_le_1_alt. exact Hle.
Qed.

(** a point within distance r lies in the bounding square of the circle *)
Lemma disk_in_box (dx dy r : R) :
  (0 <= r)%R -> (dx * dx + dy * dy <= r * r)%R ->
  (- r <= dx <= r /\ - r <= dy <= r)%R.
Proof.
  intros Hr Hle.
  assert (Hx : (dx * dx <= r * r)%R) by nra.
  assert (Hy : (dy * dy <= r * r)%R) by nra.
  repeat split.
  - destruct (Rle_dec (- r) dx); [assumption | exfalso; nra].
  - destruct (Rle_dec dx r); [assumption | exfalso; nra].
  - destruct (Rle_dec (- r) dy); [assumption | exfalso; nra].
  - destruct (Rle_dec dy r); [assumption | exfalso; nra].
Qed.



(** ** The quadrant classifier *)

Section Classifier.

Variables (px py left top right bottom : R).
Local Open Scope R_scope.

Lemma Rleb_and (a b c d : R) :
  Rleb a b && Rleb c d = true <-> a <= b /\ c <= d.
Proof. rewrite andb_true_iff, !Rleb_true. tauto. Qed.

(** the four flags of the source decide the four half-planes *)
Lemma getQuadrant_flags :
  exists xgt xlt yhigh ylow : bool,
    (xgt = true <-> Region.right_half px left right)
    /\ (xlt = true <-> Region.left_half px left right)
    /\ (yhigh = true <-> Region.near_top py top bottom)
    /\ (ylow = true <-> Region.near_bottom py top bottom)
    /\ TSMT_getQuadrant px py left top right bottom =
         (if xgt && yhigh then 1
          else if xgt && ylow then 2
          else if xlt && ylow then 3
          else if xlt && yhigh then 4
          else 0)%Z.
Proof.
  unfold TSMT_getQuadrant; js_R.
  do 4 eexists.
  split; [| split; [| split; [| split; [| reflexivity ]]]].
  - rewrite Rleb_and. unfold Region.right_half, Region.xmid. lra.
  - rewrite Rleb_and. unfold Region.left_half, Region.xmid. lra.
  - unfold Region.near_top, Region.ymid.
    destruct (Rleb top bottom) eqn:E;
      [apply Rleb_true in E | apply Rleb_false in E]; rewrite Rleb_and; lra.
  - unfold Region.near_bottom, Region.ymid.
    destruct (Rleb top bottom) eqn:E;
      [apply Rleb_true in E | apply Rleb_false in E]; rewrite Rleb_and; lra.
Qed.

Lemma in_rect_halves :
  left <= right ->
  (Region.in_rect px py left top right bottom <->
   (Region.right_half px left right \/ Region.left_half px left right)
   /\ (Region.near_top py top bottom \/ Region.near_bottom py top bottom)).
Proof.
  intros Hlr.
  unfold Region.in_rect, Region.right_half, Region.left_half,
    Region.near_top, Region.near_bottom, Region.xmid, Region.ymid, Rmin, Rmax.
  destruct (Rle_dec top bottom); lra.
Qed.


End Classifier.


(** ** The simulation step *)

Section Engine.

Context {A : Type} `{Number A}.

Lemma next_outside (u t : A) (s : PicCanvasDirective A) :
  let P := walk s u t in
  let q := quadrant_at s P in
  ((0 <? q)%Z && (q <? 5)%Z = false) ->
  next u t s =
    Some (mkDirective (_width s) (_height s) (_circleRefs s) []
            (fst P) (snd P) q (_prevQuad s) (_check s)
            (_quad1 s) (_quad2 s) (_quad3 s) (_quad4 s), mkLog [] []).
Proof.
  unfold next, walk, quadrant_at.
  destruct (pointRandomWalk _ _ _ _ u t) as [px py]; cbn [fst snd].
  intros Hq. rewrite Hq. reflexivity.
Qed.

Lemma next_inside (u t : A) (s : PicCanvasDirective A) :
  let P := walk s u t in
  let q := quadrant_at s P in
  (1 <= q <= 4)%Z ->
  next u t s =
    match (if negb (q =? _prevQuad s)%Z
           then option_map Object_keys (quad_property s q) else _check s) with
    | None => None
    | Some ids =>
        match check_forEach (fst P) (snd P) (_circleRefs s) ids [] (mkLog [] []) with
        | None => None
        | Some (identified', log) =>
            Some (mkDirective (_width s) (_height s) (_circleRefs s) identified'
                    (fst P) (snd P) q
                    (if negb (q =? _prevQuad s)%Z then q else _prevQuad s)
                    (Some ids)
                    (_quad1 s) (_quad2 s) (_quad3 s) (_quad4 s), log)
        end
    end.
Proof.
  unfold next, walk, quadrant_at.
  destruct (pointRandomWalk _ _ _ _ u t) as [px py]; cbn [fst snd].
  intros Hq.
  replace ((0 <? _)%Z && (_ <? 5)%Z) with true; [reflexivity |].
  symmetry. apply andb_true_iff. split; apply Z.ltb_lt; lia.
Qed.

Lemma check_forEach_total (px py : A) (refs : list (Circle.t A)) (ids : list string) :
  Forall (valid_id refs) ids ->
  forall identified log,
  exists identified' log',
    check_forEach px py refs ids identified log = Some (identified', log').
Proof.
  induction 1 as [| id ids (i & c & Hi & Hc) _ IH]; intros identified log; cbn.
  - eauto.
  - rewrite Hi; cbn. rewrite Hc.
    destruct (TSMT_PointInCircle _ _ _ _ _); apply IH.
Qed.

Lemma quad_property_defined (s : PicCanvasDirective A) (q : Z) :
  (1 <= q <= 4)%Z -> exists b, quad_property s q = Some b.
Proof.
  intros Hq.
  assert (Hc : q = 1%Z \/ q = 2%Z \/ q = 3%Z \/ q = 4%Z) by lia.
  destruct Hc as [-> | [-> | [-> | ->]]]; cbn; eauto.
Qed.

(** a step from a well-formed directive succeeds and changes neither the
    circles nor the quad-map *)
Lemma next_total (u t : A) (s : PicCanvasDirective A) :
  well_formed s ->
  exists s' log,
    next u t s = Some (s', log) /\ well_formed s' /\ same_circles s s'.
Proof.
  intros (Hquads & Hcheck & Hprev).
  set (P := walk s u t). set (q := quadrant_at s P).
  destruct ((0 <? q)%Z && (q <? 5)%Z) eqn:Hq.
  - apply andb_true_iff in Hq. destruct Hq as [Hq0 Hq5].
    apply Z.ltb_lt in Hq0, Hq5.
    assert (Hq : (1 <= q <= 4)%Z) by lia.
    pose proof (next_inside u t s Hq) as Hnext. fold P q in Hnext.
    rewrite Hnext. clear Hnext.
    assert (Hids : exists ids,
               (if negb (q =? _prevQuad s)%Z
                then option_map Object_keys (quad_property s q) else _check s)
               = Some ids /\ Forall (valid_id (_circleRefs s)) ids).
    { destruct (q =? _prevQuad s)%Z eqn:Heq; cbn [negb].
      - apply Z.eqb_eq in Heq.
        destruct (_check s) as [ids |] eqn:Hc.
        + eauto.
        + exfalso. apply Hprev; [lia | reflexivity].
      - destruct (quad_property_defined s q Hq) as [b Hb].
        rewrite Hb. cbn. eauto. }
    destruct Hids as (ids & -> & Hvalid).
    destruct (check_forEach_total (fst P) (snd P) _ _ Hvalid [] (mkLog [] []))
      as (identified' & log' & ->).
    do 2 eexists. split; [reflexivity |].
    split; [| repeat split; reflexivity].
    repeat split; cbn.
    + exact Hquads.
    + intros ids' [= <-]. exact Hvalid.
    + discriminate.
  - rewrite (next_outside u t s Hq).
    do 2 eexists. split; [reflexivity |].
    split; [| repeat split; reflexivity].
    repeat split; cbn; assumption.
Qed.

Lemma same_circles_refl (s : PicCanvasDirective A) : same_circles s s.
Proof. repeat split; reflexivity. Qed.

Lemma same_circles_trans (s0 s1 s2 : PicCanvasDirective A) :
  same_circles s0 s1 -> same_circles s1 s2 -> same_circles s0 s2.
Proof.
  intros (H1 & H2 & H3 & H4) (H1' & H2' & H3' & H4').
  repeat split; try congruence.
  all: intros q; rewrite H4'; apply H4.
Qed.

(** every run from a well-formed directive succeeds *)
Lemma trace_total (rnd : list (A * A)) :
  forall s, well_formed s ->
  exists tr, trace rnd s = Some tr
    /\ List.length tr = List.length rnd
    /\ Forall (fun e => well_formed (fst e) /\ same_circles s (fst e)) tr.
Proof.
  induction rnd as [| [u t] rnd IH]; intros s Hwf; cbn.
  - exists []. repeat split; constructor.
  - destruct (next_total u t s Hwf) as (s' & log & -> & Hwf' & Hsame).
    destruct (IH s' Hwf') as (tr & -> & Hlen & Hall).
    eexists. split; [reflexivity |]. split; [cbn; congruence |].
    constructor; [cbn; auto |].
    eapply Forall_impl; [| exact Hall].
    cbn. intros e [He1 He2]. split; [assumption |].
    eapply same_circles_trans; eassumption.
Qed.

(** C3: when the classifier returns 0 for the moved point, the step runs
    the point-in-circle test on no circle, emits no intersection and leaves
    the list of identified circles empty, whatever the circles are; the
    cached id list and the previous quadrant are left as they were. *)
Theorem next_quadrant_zero (u t : A) (s : PicCanvasDirective A) :
  quadrant_at s (walk s u t) = 0%Z ->
  exists s',
    next u t s = Some (s', mkLog [] [])
    /\ _identified s' = []
    /\ _curQuad s' = 0%Z
    /\ _check s' = _check s
    /\ _prevQuad s' = _prevQuad s.
Proof.
  intros Hq.
  assert (Hout : (0 <? quadrant_at s (walk s u t))%Z
                 && (quadrant_at s (walk s u t) <? 5)%Z = false)
    by (rewrite Hq; reflexivity).
  rewrite (next_outside u t s Hout).
  eexists. split; [reflexivity |].
  cbn. rewrite Hq. repeat split; reflexivity.
Qed.

End Engine.

(** the point walks from (105, 50) to (114, 50): outside the container, so
    in no quadrant, and inside the circle of centre (95, 50) and radius 20 *)
Lemma next_quadrant_zero_witness :
  let P := walk directive_example (f64 0.5) (f64 0.1) in
  quadrant_at directive_example P = 0%Z
  /\ TSMT_PointInCircle (fst P) (snd P) (f64 95) (f64 50) (f64 20) = true
  /\ exists s',
       next (f64 0.5) (f64 0.1) directive_example = Some (s', mkLog [] [])
       /\ _identified s' = []
       /\ _curQuad s' = 0%Z
       /\ _check s' = _check directive_example
       /\ _prevQuad s' = _prevQuad directive_example.
Proof.
  split; [vm_compute; reflexivity |].
  split; [vm_compute; reflexivity |].
  apply (next_quadrant_zero (f64 0.5) (f64 0.1) directive_example).
  vm_compute. reflexivity.
Defined.

(** ** Initialisation of the circles and of the quad-map *)

Lemma index_of_toString (i : nat) : index_of_id (Number_toString i) = Some i.
Proof.
  unfold index_of_id, Number_toString.
  rewrite NilEmpty.usu. cbn. now rewrite Unsigned.of_to.
Qed.

Lemma Object_keys_set (o : JsRecord) (k : string) (v : bool) (x : string) :
  In x (Object_keys (JsRecord_set o k v)) <-> In x (Object_keys o) \/ x = k.
Proof.
  induction o as [| [k' v'] o IH]; cbn.
  - intuition congruence.
  - destruct (String.eqb_spec k' k) as [-> | Hne]; cbn.
    + intuition congruence.
    + unfold Object_keys in IH. rewrite IH. tauto.
Qed.

Section Init.

Context {A : Type} `{Number A}.

Lemma valid_id_app (refs more : list (Circle.t A)) (id : string) :
  valid_id refs id -> valid_id (refs ++ more) id.
Proof.
  intros (i & c & Hi & Hc). exists i, c. split; [assumption |].
  rewrite nth_error_app1; [assumption |].
  apply nth_error_Some. congruence.
Qed.

Lemma quad_property_inv (s : PicCanvasDirective A) (q : Z) (b : JsRecord) :
  quad_property s q = Some b ->
  (q = 1%Z /\ b = _quad1 s) \/ (q = 2%Z /\ b = _quad2 s)
  \/ (q = 3%Z /\ b = _quad3 s) \/ (q = 4%Z /\ b = _quad4 s).
Proof.
  destruct q as [| [[[]|[]|]|[[]|[]|]|] |]; cbn; intros [= <-]; tauto.
Qed.

(** the bucket of a quadrant after one iteration *)
Lemma initCircles_body_spec (i : nat) (xyr : A * A * A) (s : PicCanvasDirective A) :
  let s' := initCircles_body i xyr s in
  let c := new_circle (_width s) (_height s) i xyr in
  _circleRefs s' = _circleRefs s ++ [c]
  /\ _width s' = _width s /\ _height s' = _height s
  /\ _check s' = _check s /\ _prevQuad s' = _prevQuad s
  /\ forall q b', quad_property s' q = Some b' ->
       exists b, quad_property s q = Some b
         /\ b' = (if Circle_inQuadrant c q then JsRecord_set b (Circle.id c) true else b).
Proof.
  destruct xyr as [[x y] r]. cbn.
  repeat split.
  intros q b' Hq.
  destruct q as [| [[[]|[]|]|[[]|[]|]|] |]; cbn in Hq; try discriminate;
    injection Hq as <-; eexists; (split; [reflexivity |]); reflexivity.
Qed.

Lemma initCircles_body_inv (i : nat) (xyr : A * A * A) (s : PicCanvasDirective A) :
  i = List.length (_circleRefs s) ->
  well_formed s -> indexed s ->
  let s' := initCircles_body i xyr s in
  S i = List.length (_circleRefs s') /\ well_formed s' /\ indexed s'.
Proof.
  intros Hi (Hquads & Hcheck & Hprev) Hidx s'.
  destruct (initCircles_body_spec i xyr s)
    as (Hrefs & Hw & Hh & Hchk & Hpq & Hb).
  fold s' in Hrefs, Hw, Hh, Hchk, Hpq, Hb.
  set (c := new_circle (_width s) (_height s) i xyr) in *.
  assert (Hnew : nth_error (_circleRefs s') i = Some c).
  { rewrite Hrefs, nth_error_app2 by lia.
    replace (i - List.length (_circleRefs s))%nat with 0%nat by lia. reflexivity. }
  split; [rewrite Hrefs, length_app; cbn; lia |].
  split.
  - repeat split.
    + intros q b' Hq. destruct (Hb q b' Hq) as (b & Hqb & ->).
      apply Forall_forall. intros id Hid.
      assert (Hold : In id (Object_keys b) \/ id = Circle.id c).
      { destruct (Circle_inQuadrant c q); [| tauto].
        apply Object_keys_set in Hid. exact Hid. }
      destruct Hold as [Hold | ->].
      * rewrite Hrefs. apply valid_id_app.
        pose proof (Hquads q b Hqb) as Hv.
        rewrite Forall_forall in Hv. auto.
      * exists i, c. split; [apply index_of_toString | exact Hnew].
    + intros ids Hids. rewrite Hchk in Hids. rewrite Hrefs.
      eapply Forall_impl; [| exact (Hcheck ids Hids)].
      intros id. apply valid_id_app.
    + rewrite Hchk, Hpq. exact Hprev.
  - intros k c' Hk.
    assert (Hcase : nth_error (_circleRefs s) k = Some c' \/ (k = i /\ c' = c)).
    { rewrite Hrefs in Hk.
      destruct (Nat.lt_ge_cases k (List.length (_circleRefs s))) as [Hlt | Hge].
      - left. rewrite nth_error_app1 in Hk; assumption.
      - right. rewrite nth_error_app2 in Hk by assumption.
        destruct (k - List.length (_circleRefs s))%nat as [| m] eqn:Hm; cbn in Hk.
        + split; [lia | congruence].
        + destruct m; discriminate. }
    destruct Hcase as [Hold | [-> ->]].
    + destruct (Hidx k c' Hold) as (Hid & Hl & Ht & Hr & Hbt & Hin).
      rewrite Hw, Hh. repeat split; try assumption.
      intros q b' Hq Hinq. destruct (Hb q b' Hq) as (b & Hqb & ->).
      specialize (Hin q b Hqb Hinq).
      destruct (Circle_inQuadrant c q); [| assumption].
      apply Object_keys_set. tauto.
    + rewrite Hw, Hh. repeat split.
      intros q b' Hq Hinq. destruct (Hb q b' Hq) as (b & Hqb & ->).
      rewrite Hinq. apply Object_keys_set. tauto.
Qed.

Lemma initCircles_loop_inv (draws : nat -> A * A * A) (n : nat) :
  forall i s,
    i = List.length (_circleRefs s) -> well_formed s -> indexed s ->
    let s' := initCircles_loop draws n i s in
    (i + n)%nat = List.length (_circleRefs s') /\ well_formed s' /\ indexed s'
    /\ _width s' = _width s /\ _height s' = _height s.
Proof.
  induction n as [| n IH]; intros i s Hi Hwf Hidx; cbn.
  - split; [lia |]. auto.
  - destruct (initCircles_body_inv i (draws i) s Hi Hwf Hidx) as (Hi' & Hwf' & Hidx').
    destruct (IH (S i) _ Hi' Hwf' Hidx') as (Hlen & Hwf'' & Hidx'' & Hw & Hh).
    destruct (initCircles_body_spec i (draws i) s) as (_ & Hw' & Hh' & _).
    split; [lia |]. split; [assumption |]. split; [assumption |].
    split; congruence.
Qed.

Lemma initCircles_loop_refs (draws : nat -> A * A * A) (n : nat) :
  forall i s,
    _circleRefs (initCircles_loop draws n i s) =
    _circleRefs s
      ++ List.map (fun k => new_circle (_width s) (_height s) k (draws k)) (seq i n).
Proof.
  induction n as [| n IH]; intros i s; cbn.
  - now rewrite app_nil_r.
  - rewrite IH.
    destruct (initCircles_body_spec i (draws i) s) as (-> & -> & -> & _).
    now rewrite <- app_assoc.
Qed.

Lemma ngOnInit_start_ok (w h : A) :
  0%nat = List.length (_circleRefs (ngOnInit_start w h))
  /\ well_formed (ngOnInit_start w h) /\ indexed (ngOnInit_start w h).
Proof.
  split; [reflexivity |]. split.
  - repeat split; cbn.
    + intros q b Hq.
      destruct (quad_property_inv _ q b Hq) as [[_ ->] | [[_ ->] | [[_ ->] | [_ ->]]]];
        constructor.
    + discriminate.
    + lia.
  - intros k c Hk. destruct k; discriminate.
Qed.

Lemma ngOnInit_ok (w h : A) (draws : nat -> A * A * A) :
  let s0 := ngOnInit w h draws in
  CircleService.NUM_CIRCLES = List.length (_circleRefs s0)
  /\ well_formed s0 /\ indexed s0 /\ _width s0 = w /\ _height s0 = h.
Proof.
  destruct (ngOnInit_start_ok w h) as (Hi & Hwf & Hidx).
  exact (initCircles_loop_inv draws CircleService.NUM_CIRCLES 0 _ Hi Hwf Hidx).
Qed.

End Init.

(** ** The quad-map has no false negative *)

Section QuadMap.

Local Open Scope R_scope.

Lemma PointInCircle_box (px py xc yc r : R) :
  TSMT_PointInCircle px py xc yc r = true ->
  xc - r <= px <= xc + r /\ yc - r <= py <= yc + r.
Proof.
  unfold TSMT_PointInCircle; js_R; cmp_cases; intros Ht;
    try discriminate; lra.
Qed.

Lemma getQuadrant_in_quadrant (px py left top right bottom : R) (q : Z) :
  (1 <= q <= 4)%Z ->
  TSMT_getQuadrant px py left top right bottom = q ->
  Region.in_quadrant px py left top right bottom q.
Proof.
  intros Hq <-.
  destruct (getQuadrant_flags px py left top right bottom)
    as (xgt & xlt & yhigh & ylow & Hxgt & Hxlt & Hyh & Hyl & Heq).
  rewrite Heq in Hq |- *. clear Heq.
  destruct xgt, xlt, yhigh, ylow; cbn in Hq |- *;
    solve [lia | intuition congruence].
Qed.

(** a circle whose disk meets a closed quadrant is in that quadrant *)
Lemma inQuadrant_of_point (c : Circle.t R) (px py : R) (q : Z) :
  TSMT_PointInCircle px py (Circle.x c) (Circle.y c) (Circle.radius c) = true ->
  Region.in_quadrant px py (Circle.left c) (Circle.top c)
    (Circle.right c) (Circle.bottom c) q ->
  Circle_inQuadrant c q = true.
Proof.
  intros Hin Hreg. apply PointInCircle_box in Hin.
  unfold Circle_inQuadrant; js_R.
  unfold Region.in_quadrant, Region.right_half, Region.left_half,
    Region.near_top, Region.near_bottom, Region.xmid, Region.ymid in Hreg.
  destruct q as [| [[[]|[]|]|[[]|[]|]|] |]; try contradiction;
    destruct (Rleb (Circle.top c) (Circle.bottom c)) eqn:E;
    (apply Rleb_true in E || apply Rleb_false in E);
    apply andb_true_iff; rewrite !Rleb_and; lra.
Qed.

(** C2: for every circle of the initialised set and every point inside it,
    if the classifier puts the point in quadrant q of the container, or the
    point merely lies in the closed rectangle of quadrant q, with q in
    1..4, then the circle's id is a key of the bucket of quadrant q. *)
Theorem quad_map_no_false_negative
  (w h : R) (draws : nat -> R * R * R) (c : Circle.t R) (px py : R) (q : Z) :
  let s0 := ngOnInit w h draws in
  In c (_circleRefs s0) ->
  TSMT_PointInCircle px py (Circle.x c) (Circle.y c) (Circle.radius c) = true ->
  (1 <= q <= 4)%Z ->
  quadrant_at s0 (px, py) = q \/ Region.in_quadrant px py 0 0 w h q ->
  exists b, quad_property s0 q = Some b /\ In (Circle.id c) (Object_keys b).
Proof.
  intros s0 Hc Hin Hq Hquad.
  destruct (ngOnInit_ok w h draws) as (_ & _ & Hidx & Hw & Hh).
  fold s0 in Hidx, Hw, Hh.
  destruct (In_nth_error _ _ Hc) as [k Hk].
  destruct (Hidx k c Hk) as (_ & Hl & Ht & Hr & Hb & Hbucket).
  destruct (quad_property_defined s0 q Hq) as [b Hqb].
  exists b. split; [exact Hqb |].
  apply (Hbucket q b Hqb).
  apply (inQuadrant_of_point c px py q Hin).
  rewrite Hl, Ht, Hr, Hb, Hw, Hh. js_R.
  replace (Q2R 0) with 0 by lra.
  destruct Hquad as [Hget | Hreg]; [| exact Hreg].
  apply getQuadrant_in_quadrant; [exact Hq |].
  unfold quadrant_at in Hget. cbn [fst snd] in Hget.
  rewrite Hw, Hh in Hget. js_R.
  replace (Q2R 0) with 0 in Hget by lra. exact Hget.
Qed.

Lemma quad_map_no_false_negative_witness :
  exists b, quad_property (ngOnInit 100 100 draws_example) 1 = Some b
            /\ In (Number_toString 0) (Object_keys b).
Proof.
  apply (quad_map_no_false_negative 100 100 draws_example
           (new_circle 100 100 0 (draws_example 0)) 75 25 1).
  - unfold ngOnInit, __initCircles. rewrite initCircles_loop_refs.
    apply in_or_app. right. apply in_map_iff. exists 0%nat.
    split; [reflexivity |]. apply in_seq.
    unfold CircleService.NUM_CIRCLES. lia.
  - unfold TSMT_PointInCircle; cbn [new_circle draws_example Circle.x Circle.y
      Circle.radius fst snd]; js_R; cmp_cases; try reflexivity; lra.
  - lia.
  - right. cbn. unfold Region.right_half, Region.near_top, Region.xmid, Region.ymid.
    lra.
Defined.

End QuadMap.

(** ** The cached id list *)

Section Cache.

Context {A : Type} `{Number A}.

(** what a successful step leaves behind *)
Lemma next_result (u t : A) (s s' : PicCanvasDirective A) (log : StepLog) :
  next u t s = Some (s', log) ->
  let q := quadrant_at s (walk s u t) in
  _curQuad s' = q /\ _circleRefs s' = _circleRefs s
  /\ ((1 <= q <= 4)%Z ->
        _prevQuad s' = q
        /\ exists ids, _check s' = Some ids
             /\ tests (_circleRefs s) ids (s', log)
             /\ (_prevQuad s = q -> _check s = Some ids)
             /\ (_prevQuad s <> q ->
                 option_map Object_keys (quad_property s q) = Some ids))
  /\ (~ (1 <= q <= 4)%Z -> log = mkLog [] [] /\ _identified s' = []).
Proof.
  intros Hnext q.
  destruct ((0 <? q)%Z && (q <? 5)%Z) eqn:Hrange.
  - apply andb_true_iff in Hrange. destruct Hrange as [Hq0 Hq5].
    apply Z.ltb_lt in Hq0, Hq5.
    assert (Hq : (1 <= q <= 4)%Z) by lia.
    rewrite (next_inside u t s Hq) in Hnext. fold q in Hnext.
    destruct (q =? _prevQuad s)%Z eqn:Heq; cbn [negb] in Hnext;
      [apply Z.eqb_eq in Heq | apply Z.eqb_neq in Heq].
    + destruct (_check s) as [ids |] eqn:Hc; [| discriminate].
      destruct (check_forEach _ _ _ ids [] _) as [[identified' log'] |] eqn:Hf;
        [| discriminate].
      injection Hnext as <- <-. cbn.
      split; [reflexivity |]. split; [reflexivity |]. split; [| lia].
      intros _. split; [congruence |]. exists ids. unfold tests. cbn.
      repeat split; congruence.
    + destruct (quad_property s q) as [b |] eqn:Hb; [| discriminate].
      cbn [option_map] in Hnext.
      destruct (check_forEach _ _ _ (Object_keys b) [] _)
        as [[identified' log'] |] eqn:Hf; [| discriminate].
      injection Hnext as <- <-. cbn.
      split; [reflexivity |]. split; [reflexivity |]. split; [| lia].
      intros _. split; [reflexivity |]. exists (Object_keys b).
      unfold tests. cbn. repeat split; congruence.
  - rewrite (next_outside u t s Hrange) in Hnext.
    injection Hnext as <- <-. cbn.
    split; [reflexivity |]. split; [reflexivity |]. split; [| auto].
    intros Hq. exfalso.
    apply andb_false_iff in Hrange.
    destruct Hrange as [Hr | Hr]; apply Z.ltb_ge in Hr; lia.
Qed.

(** while the quadrant stays the one already entered, the cached list is
    the one every step tests *)
Lemma trace_cached (q : Z) (ids : list string) (refs : list (Circle.t A)) :
  (1 <= q <= 4)%Z ->
  forall rnd s tr,
    trace rnd s = Some tr ->
    Forall (fun e => _curQuad (fst e) = q) tr ->
    _prevQuad s = q -> _check s = Some ids -> _circleRefs s = refs ->
    Forall (tests refs ids) tr.
Proof.
  intros Hq. induction rnd as [| [u t] rnd IH]; intros s tr Htr Hall Hprev Hchk Hrefs;
    cbn in Htr.
  - injection Htr as <-. constructor.
  - destruct (next u t s) as [[s1 log1] |] eqn:Hnext; [| discriminate].
    destruct (trace rnd s1) as [tr1 |] eqn:Htr1; [| discriminate].
    injection Htr as <-.
    apply Forall_cons_iff in Hall. destruct Hall as [Hhead Htail]. cbn in Hhead.
    destruct (next_result u t s _ _ Hnext) as (Hcur & Hrefs1 & Hin & _).
    rewrite Hhead in Hcur.
    rewrite <- Hcur in Hin.
    destruct (Hin Hq) as (Hprev1 & ids1 & Hchk1 & Htests & Hsame & _).
    assert (ids1 = ids) by (specialize (Hsame Hprev); congruence). subst ids1.
    constructor; [rewrite <- Hrefs; exact Htests |].
    apply (IH s1 tr1 Htr1 Htail Hprev1 Hchk1). congruence.
Qed.

Lemma trace_outside (q : Z) :
  ~ (1 <= q <= 4)%Z ->
  forall rnd s tr,
    trace rnd s = Some tr ->
    Forall (fun e => _curQuad (fst e) = q) tr ->
    Forall (fun e => snd e = mkLog [] [] /\ _identified (fst e) = []) tr.
Proof.
  intros Hq. induction rnd as [| [u t] rnd IH]; intros s tr Htr Hall; cbn in Htr.
  - injection Htr as <-. constructor.
  - destruct (next u t s) as [[s1 log1] |] eqn:Hnext; [| discriminate].
    destruct (trace rnd s1) as [tr1 |] eqn:Htr1; [| discriminate].
    injection Htr as <-.
    apply Forall_cons_iff in Hall. destruct Hall as [Hhead Htail]. cbn in Hhead.
    destruct (next_result u t s _ _ Hnext) as (Hcur & _ & _ & Hout).
    rewrite Hhead in Hcur. rewrite <- Hcur in Hout.
    constructor; [exact (Hout Hq) |].
    apply (IH s1 tr1 Htr1 Htail).
Qed.

(** steps of a run that stays in one quadrant agree wherever the point is
    the same *)
Lemma trace_same_quadrant (q : Z) (rnd : list (A * A))
  (s : PicCanvasDirective A) (tr : list (PicCanvasDirective A * StepLog)) :
  trace rnd s = Some tr ->
  Forall (fun e => _curQuad (fst e) = q) tr ->
  forall e1 e2, In e1 tr -> In e2 tr ->
    _px (fst e1) = _px (fst e2) -> _py (fst e1) = _py (fst e2) ->
    snd e1 = snd e2 /\ _identified (fst e1) = _identified (fst e2).
Proof.
  intros Htr Hall e1 e2 He1 He2 Hx Hy.
  destruct (Z_le_dec 1 q) as [H1 | H1]; [destruct (Z_le_dec q 4) as [H4 | H4] |].
  - assert (Hq : (1 <= q <= 4)%Z) by lia.
    assert (Hex : exists ids, Forall (tests (_circleRefs s) ids) tr).
    { destruct rnd as [| [u t] rnd]; cbn in Htr.
      - injection Htr as <-. exists []. constructor.
      - destruct (next u t s) as [[s1 log1] |] eqn:Hnext; [| discriminate].
        destruct (trace rnd s1) as [tr1 |] eqn:Htr1; [| discriminate].
        injection Htr as <-.
        apply Forall_cons_iff in Hall. destruct Hall as [Hhead Htail]. cbn in Hhead.
        destruct (next_result u t s _ _ Hnext) as (Hcur & Hrefs1 & Hin & _).
        rewrite Hhead in Hcur. rewrite <- Hcur in Hin.
        destruct (Hin Hq) as (Hprev1 & ids1 & Hchk1 & Htests & _).
        exists ids1. constructor; [exact Htests |].
        apply (trace_cached q ids1 (_circleRefs s) Hq rnd s1 tr1 Htr1 Htail Hprev1 Hchk1 Hrefs1). }
    destruct Hex as [ids Htests].
    rewrite Forall_forall in Htests.
    pose proof (Htests e1 He1) as T1. pose proof (Htests e2 He2) as T2.
    unfold tests in T1, T2. rewrite Hx, Hy in T1. rewrite T1 in T2.
    injection T2 as -> ->. auto.
  - pose proof (trace_outside q ltac:(lia) rnd s tr Htr Hall) as Hout.
    rewrite Forall_forall in Hout.
    destruct (Hout e1 He1) as [-> ->]. destruct (Hout e2 He2) as [-> ->]. auto.
  - pose proof (trace_outside q ltac:(lia) rnd s tr Htr Hall) as Hout.
    rewrite Forall_forall in Hout.
    destruct (Hout e1 He1) as [-> ->]. destruct (Hout e2 He2) as [-> ->]. auto.
Qed.

Lemma last_Forall (X : Type) (P : X -> Prop) (l : list X) (d : X) :
  P d -> Forall P l -> P (last l d).
Proof.
  intros Hd Hl. induction Hl as [| x l Hx Hl IH]; cbn; [exact Hd |].
  destruct l; [exact Hx | exact IH].
Qed.

(** every run from a well-formed directive succeeds, and ends in a
    well-formed directive with the same circles and quad-map *)
Lemma final_ok (rnd : list (A * A)) (s : PicCanvasDirective A) :
  well_formed s ->
  exists tr, trace rnd s = Some tr
    /\ well_formed (final s tr) /\ same_circles s (final s tr).
Proof.
  intros Hwf.
  destruct (trace_total rnd s Hwf) as (tr & Htr & _ & Hall).
  exists tr. split; [exact Htr |].
  unfold final.
  apply (last_Forall _ (fun x => well_formed x /\ same_circles s x)).
  - split; [assumption | apply same_circles_refl].
  - apply Forall_map. exact Hall.
Qed.

End Cache.

(** C4: from the initialised directive and after any history of steps, a
    step whose quadrant q is in 1..4 and differs from the previous quadrant
    succeeds and replaces the cached id list by the keys of the bucket of
    quadrant q as it was initialised; and in any further run during which
    the quadrant never changes, two steps at the same point test the same
    ids, emit the same intersections and identify the same circles. *)
Theorem cached_ids_follow_quadrant
  (A : Type) (N : Number A) (w h : A) (draws : nat -> A * A * A)
  (history : list (A * A)) :
  let s0 := ngOnInit w h draws in
  exists tr0, trace history s0 = Some tr0
    /\ let s := final s0 tr0 in
       (forall u t,
          let q := quadrant_at s (walk s u t) in
          (1 <= q <= 4)%Z -> q <> _prevQuad s ->
          exists s' log b,
            quad_property s0 q = Some b
            /\ next u t s = Some (s', log)
            /\ _check s' = Some (Object_keys b)
            /\ _prevQuad s' = q
            /\ quad_property s' q = Some b)
       /\ (forall rnd, exists tr,
             trace rnd s = Some tr
             /\ forall q, Forall (fun e => _curQuad (fst e) = q) tr ->
                forall e1 e2, In e1 tr -> In e2 tr ->
                  _px (fst e1) = _px (fst e2) -> _py (fst e1) = _py (fst e2) ->
                  snd e1 = snd e2 /\ _identified (fst e1) = _identified (fst e2)).
Proof.
  intros s0.
  destruct (ngOnInit_ok w h draws) as (_ & Hwf0 & _).
  destruct (final_ok history (ngOnInit w h draws) Hwf0) as (tr0 & Htr0 & Hwf & Hsame).
  exists tr0. split; [exact Htr0 |].
  fold s0 in Hwf, Hsame. intros s. fold s in Hwf, Hsame.
  split.
  - intros u t q Hq Hne.
    destruct (next_total u t s Hwf) as (s' & log & Hnext & _ & Hsame').
    destruct (next_result u t s s' log Hnext) as (_ & _ & Hin & _).
    fold q in Hin.
    destruct (Hin Hq) as (Hprev' & ids & Hchk' & _ & _ & Hchanged).
    destruct (quad_property_defined s q Hq) as [b Hb].
    exists s', log, b.
    destruct Hsame as (_ & _ & _ & Hq0). destruct Hsame' as (_ & _ & _ & Hq').
    rewrite <- Hq0, Hq', Hb.
    repeat split; try assumption.
    rewrite Hchk'. rewrite <- Hchanged by congruence. rewrite Hb. reflexivity.
  - intros rnd.
    destruct (trace_total rnd s Hwf) as (tr & Htr & _).
    exists tr. split; [exact Htr |].
    intros q Hall. exact (trace_same_quadrant q rnd s tr Htr Hall).
Qed.

(** ** NaN in binary64 *)

Section NaN.

Import SpecFloat FloatAxioms.

Lemma nan_add_l x y : NaN64 x -> NaN64 (PrimFloat.add x y).
Proof. unfold NaN64. intros Hx. rewrite add_spec, Hx. reflexivity. Qed.

Lemma nan_add_r x y : NaN64 y -> NaN64 (PrimFloat.add x y).
Proof.
  unfold NaN64. intros Hy. rewrite add_spec, Hy.
  destruct (FloatOps.Prim2SF x); reflexivity.
Qed.

Lemma nan_sub_l x y : NaN64 x -> NaN64 (PrimFloat.sub x y).
Proof. unfold NaN64. intros Hx. rewrite sub_spec, Hx. reflexivity. Qed.

Lemma nan_sub_r x y : NaN64 y -> NaN64 (PrimFloat.sub x y).
Proof.
  unfold NaN64. intros Hy. rewrite sub_spec, Hy.
  destruct (FloatOps.Prim2SF x); reflexivity.
Qed.

Lemma nan_mul_l x y : NaN64 x -> NaN64 (PrimFloat.mul x y).
Proof. unfold NaN64. intros Hx. rewrite mul_spec, Hx. reflexivity. Qed.

Lemma nan_mul_r x y : NaN64 y -> NaN64 (PrimFloat.mul x y).
Proof.
  unfold NaN64. intros Hy. rewrite mul_spec, Hy.
  destruct (FloatOps.Prim2SF x); reflexivity.
Qed.

Lemma nan_sqrt x : NaN64 x -> NaN64 (PrimFloat.sqrt x).
Proof. unfold NaN64. intros Hx. rewrite sqrt_spec, Hx. reflexivity. Qed.

Lemma nan_abs x : NaN64 x -> NaN64 (PrimFloat.abs x).
Proof. unfold NaN64. intros Hx. rewrite abs_spec, Hx. reflexivity. Qed.

(** a comparison with NaN on the left is false *)
Lemma nan_ltb_l x y : NaN64 x -> PrimFloat.ltb x y = false.
Proof. unfold NaN64. intros Hx. rewrite ltb_spec, Hx. reflexivity. Qed.

(** the difference of two numbers that are [==] is a zero, or NaN for two
    infinities *)
Lemma sub_of_equal x y :
  PrimFloat.eqb x y = true -> zero_or_NaN64 (PrimFloat.sub x y).
Proof.
  unfold zero_or_NaN64, NaN64. rewrite eqb_spec, sub_spec.
  destruct (FloatOps.Prim2SF x) as [s | s | | s m e],
           (FloatOps.Prim2SF y) as [s' | s' | | s' m' e'];
    try destruct s; try destruct s'; cbn; try discriminate;
    try solve [intros _; first [left; reflexivity | right; eexists; reflexivity]].
  all: unfold SFeqb, SFcompare;
    destruct (Z.compare e e') eqn:He; try discriminate;
    destruct (Pos.compare_cont Eq m m') eqn:Hm; try discriminate;
    intros _; apply Z.compare_eq in He; apply Pos.compare_eq in Hm; subst;
    right; rewrite Z.pos_sub_diag; cbn; eauto.
Qed.

Lemma mul_zero_r x y : zero_or_NaN64 y -> zero_or_NaN64 (PrimFloat.mul x y).
Proof.
  intros [Hy | [s Hy]]; [left; now apply nan_mul_r |].
  unfold zero_or_NaN64, NaN64. rewrite mul_spec, Hy.
  destruct (FloatOps.Prim2SF x); cbn; eauto.
Qed.

Lemma add_zero x y :
  zero_or_NaN64 x -> zero_or_NaN64 y -> zero_or_NaN64 (PrimFloat.add x y).
Proof.
  intros [Hx | [s Hx]]; [left; now apply nan_add_l |].
  intros [Hy | [s' Hy]]; [left; now apply nan_add_r |].
  right. rewrite add_spec, Hx, Hy. destruct s, s'; cbn; eauto.
Qed.

(** zero divided by zero is NaN *)
Lemma div_zero_zero x y :
  zero_or_NaN64 x -> zero_or_NaN64 y -> NaN64 (PrimFloat.div x y).
Proof.
  unfold zero_or_NaN64, NaN64.
  intros [Hx | [s Hx]] [Hy | [s' Hy]]; rewrite div_spec, Hx, ?Hy; try reflexivity.
  all: destruct (FloatOps.Prim2SF y); reflexivity.
Qed.

(** C10: for a segment whose endpoints are equal ([==] on both
    coordinates), any centre and any radius, the projection parameter of
    TSMT$CircleSegmentIntersection is NaN (a zero or NaN divided by a zero
    or NaN), and the function returns the empty array: both intersection
    tests compare NaN and are false. *)
Theorem CircleSegmentIntersection_degenerate (x1 y1 x2 y2 xc yc r : float) :
  PrimFloat.eqb x2 x1 = true ->
  PrimFloat.eqb y2 y1 = true ->
  NaN64 (Segment_projection x1 y1 x2 y2 xc yc)
  /\ TSMT_CircleSegmentIntersection x1 y1 x2 y2 xc yc r = [].
Proof.
  intros Hx Hy.
  apply sub_of_equal in Hx, Hy.
  assert (Ht : NaN64 (Segment_projection x1 y1 x2 y2 xc yc)).
  { unfold Segment_projection. cbn [nadd nsub nmul ndiv float_Number].
    apply div_zero_zero; apply add_zero; auto using mul_zero_r. }
  split; [exact Ht |].
  unfold TSMT_CircleSegmentIntersection.
  unfold Segment_projection in Ht.
  cbn [nadd nsub nmul ndiv Math_sqrt Math_abs nltb float_Number] in Ht |- *.
  set (t := PrimFloat.div _ _) in *.
  set (d := PrimFloat.sqrt _).
  assert (Hd : NaN64 d).
  { apply nan_sqrt, nan_add_l, nan_mul_l, nan_sub_l, nan_add_l, nan_mul_l,
      nan_sub_r, Ht. }
  rewrite (nan_ltb_l (PrimFloat.abs (PrimFloat.sub d r)))
    by now apply nan_abs, nan_sub_l.
  rewrite (nan_ltb_l d r Hd). reflexivity.
Qed.

End NaN.

(** the segment from (1, 1) to (1, 1) and the circle of centre (0, 0) and
    radius 5, which contains the point (1, 1) *)
Lemma CircleSegmentIntersection_degenerate_witness :
  TSMT_PointInCircle (f64 1) (f64 1) (f64 0) (f64 0) (f64 5) = true
  /\ TSMT_CircleSegmentIntersection
       (f64 1) (f64 1) (f64 1) (f64 1) (f64 0) (f64 0) (f64 5) = [].
Proof.
  split; [vm_compute; reflexivity |].
  apply (CircleSegmentIntersection_degenerate
           (f64 1) (f64 1) (f64 1) (f64 1) (f64 0) (f64 0) (f64 5));
    vm_compute; reflexivity.
Defined.

(** ** Intersection of two circles *)

Section CircleCircle.

Local Open Scope R_scope.

Lemma dist_nonneg x0 y0 x1 y1 : 0 <= dist x0 y0 x1 y1.
Proof. apply sqrt_pos. Qed.

Lemma dist_sq x0 y0 x1 y1 :
  dist x0 y0 x1 y1 * dist x0 y0 x1 y1 = (x1 - x0) * (x1 - x0) + (y1 - y0) * (y1 - y0).
Proof.
  unfold dist. apply sqrt_sqrt.
  pose proof (Rle_0_sqr (x1 - x0)). pose proof (Rle_0_sqr (y1 - y0)).
  unfold Rsqr in *. lra.
Qed.

(* the algebra of the radical line construction *)
Lemma radical_points (dx dy d r0 r1 a h ux uy : R) :
  0 < d -> d * d = dx * dx + dy * dy ->
  0 <= r0 -> 0 <= r1 ->
  a = (r0 * r0 - r1 * r1 + d * d) / (2 * d) ->
  h * h = r0 * r0 - a * a ->
  ux = dx / d -> uy = dy / d ->
  forall sg : R, sg * sg = 1 ->
  sqrt ((a * ux + sg * h * uy) * (a * ux + sg * h * uy)
        + (a * uy - sg * h * ux) * (a * uy - sg * h * ux)) = r0
  /\ sqrt ((a * ux + sg * h * uy - dx) * (a * ux + sg * h * uy - dx)
        + (a * uy - sg * h * ux - dy) * (a * uy - sg * h * ux - dy)) = r1.
Proof.
  intros Hd Hdd Hr0 Hr1 Ha Hh Hux Huy sg Hsg.
  assert (Hu : ux * ux + uy * uy = 1).
  { subst ux uy.
    replace (dx / d * (dx / d) + dy / d * (dy / d))
      with ((dx * dx + dy * dy) / (d * d)) by (field; lra).
    rewrite <- Hdd. field. lra. }
  assert (Hdx : dx = d * ux) by (subst ux; field; lra).
  assert (Hdy : dy = d * uy) by (subst uy; field; lra).
  assert (Had : 2 * d * a = r0 * r0 - r1 * r1 + d * d) by (subst a; field; lra).
  split.
  - replace (_ + _) with (r0 * r0); [apply sqrt_square; lra |].
    transitivity ((a * a + sg * sg * (h * h)) * (ux * ux + uy * uy)); [| ring].
    rewrite Hu, Hsg, Hh. ring.
  - replace (_ + _) with (r1 * r1); [apply sqrt_square; lra |].
    rewrite Hdx, Hdy.
    transitivity ((a * a + sg * sg * (h * h) - 2 * d * a + d * d) * (ux * ux + uy * uy)); [| ring].
    rewrite Hu, Hsg, Hh, Had. ring.
Qed.

Lemma radical_height (d r0 r1 a : R) :
  0 < d -> Rabs (r0 - r1) <= d <= r0 + r1 ->
  a = (r0 * r0 - r1 * r1 + d * d) / (2 * d) ->
  0 <= r0 * r0 - a * a.
Proof.
  intros Hd [Hlo Hhi] Ha.
  assert (Had : 2 * d * a = r0 * r0 - r1 * r1 + d * d) by (subst a; field; lra).
  assert (H1 : 0 <= (r0 + d - r1) * (r0 + d + r1)).
  { unfold Rabs in Hlo. destruct (Rcase_abs (r0 - r1)); apply Rmult_le_pos; lra. }
  assert (H2 : 0 <= (r1 - r0 + d) * (r1 + r0 - d)).
  { unfold Rabs in Hlo. destruct (Rcase_abs (r0 - r1)); apply Rmult_le_pos; lra. }
  assert (E1 : 2 * d * (r0 + a) = (r0 + d - r1) * (r0 + d + r1)) by nra.
  assert (E2 : 2 * d * (r0 - a) = (r1 - r0 + d) * (r1 + r0 - d)) by nra.
  assert (P1 : 0 <= r0 + a) by nra.
  assert (P2 : 0 <= r0 - a) by nra.
  replace (r0 * r0 - a * a) with ((r0 + a) * (r0 - a)) by ring.
  apply Rmult_le_pos; assumption.
Qed.

Lemma on_both_circles (x0 y0 x1 y1 r0 r1 a h sg X Y : R) :
  let d := dist x0 y0 x1 y1 in
  0 < d -> 0 <= r0 -> 0 <= r1 ->
  a = (r0 * r0 - r1 * r1 + d * d) / (2 * d) ->
  h * h = r0 * r0 - a * a ->
  sg * sg = 1 ->
  X = x0 + a * ((x1 - x0) / d) + sg * h * ((y1 - y0) / d) ->
  Y = y0 + a * ((y1 - y0) / d) - sg * h * ((x1 - x0) / d) ->
  dist x0 y0 X Y = r0 /\ dist x1 y1 X Y = r1.
Proof.
  intros d Hd Hr0 Hr1 Ha Hh Hsg HX HY.
  destruct (radical_points (x1 - x0) (y1 - y0) d r0 r1 a h
              ((x1 - x0) / d) ((y1 - y0) / d) Hd
              (dist_sq x0 y0 x1 y1) Hr0 Hr1 Ha Hh eq_refl eq_refl sg Hsg)
    as [H0 H1].
  unfold dist at 1 2. split.
  - rewrite <- H0. f_equal. subst X Y. ring.
  - rewrite <- H1. f_equal. subst X Y. ring.
Qed.

Lemma Rabs_dist x0 y0 x1 y1 : Rabs (dist x0 y0 x1 y1) = dist x0 y0 x1 y1.
Proof. apply Rabs_pos_eq, dist_nonneg. Qed.

(** the function at [R], in terms of the distance of the centres *)
Lemma CircleToCircleIntersection_R (x0 y0 r0 x1 y1 r1 : R) :
  let d := dist x0 y0 x1 y1 in
  TSMT_CircleToCircleIntersection x0 y0 r0 x1 y1 r1 =
    if Rltb (r0 + r1) d || Rltb d (Rabs (r0 - r1)) then []
    else if Rltb (Rabs d) 0.001 && Rltb (Rabs (r1 - r0)) 0.001 then []
    else
      let a := (r0 * r0 - r1 * r1 + d * d) / (2 * d) in
      let h := sqrt (r0 * r0 - a * a) in
      let p := XY.mk (x0 + a * ((x1 - x0) / d) + h * ((y1 - y0) / d))
                     (y0 + a * ((y1 - y0) / d) - h * ((x1 - x0) / d)) in
      if negb (Reqb d (r0 + r1)) then
        [p; XY.mk (x0 + a * ((x1 - x0) / d) - h * ((y1 - y0) / d))
                  (y0 + a * ((y1 - y0) / d) + h * ((x1 - x0) / d))]
      else [p].
Proof.
  intros d. subst d. unfold TSMT_CircleToCircleIntersection, dist. js_R.
  replace (Q2R 2) with 2 by lra. reflexivity.
Qed.

Lemma within_tolerance_guard (x0 y0 r0 x1 y1 r1 : R) :
  let d := dist x0 y0 x1 y1 in
  within_tolerance x0 y0 r0 x1 y1 r1 <->
  Rltb (Rabs d) 0.001 && Rltb (Rabs (r1 - r0)) 0.001 = true.
Proof.
  intros d. subst d. unfold within_tolerance.
  rewrite andb_true_iff, !Rltb_true, Rabs_dist. tauto.
Qed.

(** circles that coincide within the tolerance have no intersection *)
Lemma CircleToCircleIntersection_tolerance (x0 y0 r0 x1 y1 r1 : R) :
  within_tolerance x0 y0 r0 x1 y1 r1 ->
  TSMT_CircleToCircleIntersection x0 y0 r0 x1 y1 r1 = [].
Proof.
  intros Ht. rewrite CircleToCircleIntersection_R.
  apply within_tolerance_guard in Ht. cbv zeta. rewrite Ht.
  destruct (_ || _); reflexivity.
Qed.

Lemma dist_horizontal (x : R) : 0 <= x -> dist 0 0 x 0 = x.
Proof.
  intros Hx. unfold dist.
  replace ((x - 0) * (x - 0) + (0 - 0) * (0 - 0)) with (x * x) by ring.
  apply sqrt_square. exact Hx.
Qed.

(** the circles (0,0,5) and (8,0,5) *)
Lemma CircleToCircleIntersection_5_8_5 :
  TSMT_CircleToCircleIntersection 0 0 5 8 0 5 = [XY.mk 4 (-3); XY.mk 4 3].
Proof.
  rewrite CircleToCircleIntersection_R. cbv zeta.
  rewrite (dist_horizontal 8) by lra.
  replace (5 - 5) with 0 by ring. rewrite Rabs_R0.
  rewrite (Rabs_pos_eq 8) by lra.
  replace (Rltb (5 + 5) 8) with false by (symmetry; apply Rltb_false; lra).
  replace (Rltb 8 0) with false by (symmetry; apply Rltb_false; lra).
  replace (Rltb 8 0.001) with false by (symmetry; apply Rltb_false; lra).
  replace (Reqb 8 (5 + 5)) with false
    by (destruct (Reqb 8 (5 + 5)) eqn:E; [apply Reqb_true in E; lra | reflexivity]).
  cbn [orb andb negb].
  replace ((5 * 5 - 5 * 5 + 8 * 8) / (2 * 8)) with 4 by lra.
  replace (5 * 5 - 4 * 4) with (3 * 3) by ring.
  rewrite (sqrt_square 3) by lra.
  repeat f_equal; lra.
Qed.




End CircleCircle.

(** ** Chord parameters *)

Section ChordParams.

Local Open Scope R_scope.

Lemma fact_R (n : nat) (z : Z) : Z.of_nat (fact n) = z -> INR (fact n) = IZR z.
Proof. intros <-. apply INR_IZR_INZ. Qed.

Lemma cos_upper (a : R) : -2 <= a <= 2 ->
  cos a <= 1 - a^2/2 + a^4/24 - a^6/720 + a^8/40320.
Proof.
  intros [H1 H2].
  destruct (pre_cos_bound a 1 H1 H2) as [_ Hu].
  unfold cos_approx, cos_term in Hu. cbn [sum_f_R0 Nat.mul Nat.add] in Hu.
  rewrite (fact_R 0 1), (fact_R 2 2), (fact_R 4 24), (fact_R 6 720), (fact_R 8 40320) in Hu
    by reflexivity.
  eapply Rle_trans; [exact Hu |]. apply Req_le. field.
Qed.

Lemma cos_lower (a : R) : -2 <= a <= 2 ->
  1 - a^2/2 + a^4/24 - a^6/720 <= cos a.
Proof.
  intros [H1 H2].
  destruct (pre_cos_bound a 1 H1 H2) as [Hl _].
  unfold cos_approx, cos_term in Hl. cbn [sum_f_R0 Nat.mul Nat.add] in Hl.
  rewrite (fact_R 0 1), (fact_R 2 2), (fact_R 4 24), (fact_R 6 720) in Hl
    by reflexivity.
  eapply Rle_trans; [| exact Hl]. apply Req_le. field.
Qed.

Lemma acos_3_5 : 0.9272 < acos (3/5) < 0.9274.
Proof.
  assert (Hx : -1 <= 3/5 <= 1) by lra.
  pose proof (acos_bound (3/5)) as [Hlo Hhi].
  pose proof (cos_acos (3/5) Hx) as Hc.
  pose proof PI_4 as Hpi4. pose proof PI2_1 as Hpi2.
  split.
  - destruct (Rlt_le_dec 0.9272 (acos (3/5))) as [Hlt | Hle]; [exact Hlt | exfalso].
    assert (Hd : cos 0.9272 <= cos (acos (3/5))).
    { apply cos_decr_1; lra. }
    pose proof (cos_lower 0.9272 ltac:(lra)) as Hb.
    rewrite Hc in Hd. lra.
  - destruct (Rlt_le_dec (acos (3/5)) 0.9274) as [Hlt | Hle]; [exact Hlt | exfalso].
    assert (Hd : cos (acos (3/5)) <= cos 0.9274).
    { apply cos_decr_1; lra. }
    pose proof (cos_upper 0.9274 ltac:(lra)) as Hb.
    rewrite Hc in Hd. lra.
Qed.

Lemma sin_acos_3_5 : sin (acos (3/5)) = 4/5.
Proof.
  rewrite sin_acos by lra.
  replace (1 - (3/5)²) with (4/5 * (4/5)) by (unfold Rsqr; lra).
  apply sqrt_square. lra.
Qed.

(** the function at [R] for a positive radius *)
Lemma CircleChordParams_R (radius dst : R) :
  0 < radius ->
  let d := Rmin radius (Rmax 0 dst) in
  TSMT_CircleChordParams radius dst =
    Chord.mk (2 * sqrt ((radius - d) * (2 * radius - (radius - d))))
             (acos (d / radius))
             (0.5 * radius * radius * (acos (d / radius) - sin (acos (d / radius)))).
Proof.
  intros Hr d. subst d. unfold TSMT_CircleChordParams. js_R.
  replace (Rltb radius (Q2R 0)) with false
    by (symmetry; apply Rltb_false; lra).
  cbn [orb].
  replace (Q2R 0) with 0 by lra. replace (Q2R 2) with 2 by lra.
  replace (Q2R 2.0) with 2 by lra.
  reflexivity.
Qed.

(** the chord at distance 6 from the centre of a circle of radius 10 *)
Lemma CircleChordParams_10_6 :
  let c := TSMT_CircleChordParams 10 6 in
  Chord.l c = 16
  /\ 0.9272 < Chord.theta c < 0.9274
  /\ 6.36 < Chord.area c < 6.37.
Proof.
  rewrite CircleChordParams_R by lra. cbv zeta. cbn [Chord.l Chord.theta Chord.area].
  rewrite (Rmax_right 0 6) by lra. rewrite (Rmin_right 10 6) by lra.
  replace (6 / 10) with (3/5) by lra.
  rewrite sin_acos_3_5.
  pose proof acos_3_5 as [Hlo Hhi].
  split; [| split; lra].
  replace ((10 - 6) * (2 * 10 - (10 - 6))) with (8 * 8) by ring.
  rewrite (sqrt_square 8) by lra. ring.
Qed.




End ChordParams.

(** ** Triangle incircle *)

Section Incircle.

Local Open Scope R_scope.

(** the function at [R], in terms of the side lengths *)
Lemma TriangleIncircle_R (ax ay bx by_ cx cy : R) :
  let a := dist bx by_ cx cy in
  let b := dist ax ay cx cy in
  let c := dist ax ay bx by_ in
  let s := a + b + c in
  TSMT_TriangleIncircle ax ay bx by_ cx cy =
    if Rltb s 0.00000001 then Incircle.mk 0 ax ay 0 0
    else
      let area := sqrt (0.5 * s * (0.5 * s - a) * (0.5 * s - b) * (0.5 * s - c)) in
      Incircle.mk (2 * area * (1 / s))
                  ((a * ax + b * bx + c * cx) * (1 / s))
                  ((a * ay + b * by_ + c * cy) * (1 / s))
                  area s.
Proof.
  intros a b c s. subst a b c s. unfold TSMT_TriangleIncircle, dist. js_R.
  replace (Q2R 0) with 0 by lra. replace (Q2R 2) with 2 by lra.
  replace (Q2R 1.0) with 1 by lra.
  reflexivity.
Qed.

Lemma dist_same (x y : R) : dist x y x y = 0.
Proof.
  unfold dist. replace ((x - x) * (x - x) + (y - y) * (y - y)) with 0 by ring.
  apply sqrt_0.
Qed.



End Incircle.

(** ** Triangle circumcircle *)

(** C8 (the code departs from it): the guard of TSMT$TriangleCircumcircle
    reads only [a]; whatever b and c are, it equals the guard for (a, a, a).
    In binary64, for the sides 0, 1, 1 the guard holds and the function
    returns 0, while the quotient abc / sqrt(...) it would otherwise return
    is 0 / 0, which is NaN. *)
Theorem TriangleCircumcircle_guard_reads_a :
  (forall (A : Type) (N : Number A) (a b c : A),
      Circumcircle_guard a b c = Circumcircle_guard a a a)
  /\ Circumcircle_guard (f64 0) (f64 1) (f64 1) = true
  /\ TSMT_TriangleCircumcircle (f64 0) (f64 1) (f64 1) = f64 0
  /\ NaN64 (Circumcircle_quotient (f64 0) (f64 1) (f64 1)).
Proof.
  split; [reflexivity |].
  repeat split; vm_compute; reflexivity.
Qed.

(** ** The functions run in binary64 *)

Example PointInCircle_boundary_f64 :
  TSMT_PointInCircle (f64 3) (f64 4) (f64 0) (f64 0) (f64 5) = true.
Proof. vm_compute. reflexivity. Qed.

Example CircleToCircleIntersection_5_8_5_f64 :
  TSMT_CircleToCircleIntersection (f64 0) (f64 0) (f64 5) (f64 8) (f64 0) (f64 5)
  = [XY.mk (f64 4) (f64 (-3)); XY.mk (f64 4) (f64 3)].
Proof. vm_compute. reflexivity. Qed.

Example CircleToCircleIntersection_near_coincident_f64 :
  TSMT_CircleToCircleIntersection
    (f64 0) (f64 0) (f64 1) (f64 0.0005) (f64 0) (f64 1) = []
  /\ TSMT_CircleToCircleIntersection
       (f64 0) (f64 0) (f64 0.0004) (f64 0.0008) (f64 0) (f64 0.0004) = [].
Proof. split; vm_compute; reflexivity. Qed.

Example TriangleIncircle_3_4_5_f64 :
  TSMT_TriangleIncircle (f64 0) (f64 0) (f64 4) (f64 0) (f64 0) (f64 3)
  = Incircle.mk (f64 1) (f64 1) (f64 1) (f64 6) (f64 12).
Proof. vm_compute. reflexivity. Qed.

Example TriangleIncircle_degenerate_f64 :
  TSMT_TriangleIncircle (f64 1) (f64 1) (f64 1) (f64 1) (f64 1) (f64 1)
  = Incircle.mk (f64 0) (f64 1) (f64 1) (f64 0) (f64 0).
Proof. vm_compute. reflexivity. Qed.

Example getQuadrant_scenario_f64 :
  TSMT_getQuadrant (f64 75) (f64 25) (f64 0) (f64 0) (f64 100) (f64 100) = 1%Z
  /\ TSMT_getQuadrant (f64 10) (f64 10) (f64 0) (f64 0) (f64 100) (f64 100) = 4%Z.
Proof. split; vm_compute; reflexivity. Qed.

(** * The rest of the circle utilities, the point class and the directives *)

Ltac js_R2 :=
  cbn [lit nadd nsub nmul ndiv Math_sqrt Math_abs Math_max Math_min Math_round
       nltb nleb neqb isNaN R_Number Math_acos Math_sin R_Trig
       Math_PI Math_cos R_Circular isFinite R_Finite] in *.

Lemma Rleb_true' (x y : R) : (x <= y)%R -> Rleb x y = true.
Proof. apply Rleb_true. Qed.

Lemma Rleb_false' (x y : R) : (y < x)%R -> Rleb x y = false.
Proof. apply Rleb_false. Qed.

Lemma Rltb_true' (x y : R) : (x < y)%R -> Rltb x y = true.
Proof. apply Rltb_true. Qed.

Lemma Rltb_false' (x y : R) : (y <= x)%R -> Rltb x y = false.
Proof. apply Rltb_false. Qed.

(** ** Points, areas and inscribed figures of a circle *)

Section MoreGeometry.

Local Open Scope R_scope.

(** the test in terms of the squared distance *)
Lemma PointInCircle_sq (px py xc yc r : R) :
  0 <= r ->
  (px - xc) * (px - xc) + (py - yc) * (py - yc) <= r * r ->
  TSMT_PointInCircle px py xc yc r = true.
Proof.
  intros Hr Hd.
  destruct (disk_in_box (px - xc) (py - yc) r Hr Hd) as [[? ?] [? ?]].
  unfold TSMT_PointInCircle; js_R; cmp_cases; try reflexivity; exfalso; lra.
Qed.



(** X2: the sector of the full angle 2 pi has the area of TSMT$CircleArea
    and the arc length of TSMT$CircleCircumference, for every radius
    (negative ones are read as 0 by all three); and TSMT$CircleArcLength is
    the arc length of TSMT$CircleSectorParams at every angle. *)
Theorem full_sector_is_circle (r : R) :
  Sector.area (TSMT_CircleSectorParams r (2 * PI)) = TSMT_CircleArea r
  /\ Sector.len (TSMT_CircleSectorParams r (2 * PI)) = TSMT_CircleCircumference r
  /\ forall t, TSMT_CircleArcLength r t = Sector.len (TSMT_CircleSectorParams r t).
Proof.
  pose proof PI_RGT_0 as Hpi.
  unfold TSMT_CircleSectorParams, TSMT_CircleArea, TSMT_CircleCircumference,
    TSMT_CircleArcLength. js_R2. cbn [orb Sector.area Sector.len].
  replace (Q2R 0.0) with 0 by lra. replace (Q2R 0) with 0 by lra.
  rewrite (Rabs_pos_eq (2 * PI)) by lra.
  destruct (Rltb r 0) eqn:Hr; [apply Rltb_true in Hr | apply Rltb_false in Hr].
  - repeat split; try lra. intros t. rewrite Rmult_0_l, Rabs_R0. lra.
  - repeat split; try lra. intros t. rewrite Rabs_mult, (Rabs_pos_eq r Hr). reflexivity.
Qed.

Lemma sqrt2_sq : sqrt 2 * sqrt 2 = 2.
Proof. apply sqrt_sqrt. lra. Qed.

Lemma sqrt3_sq : sqrt 3 * sqrt 3 = 3.
Proof. apply sqrt_sqrt. lra. Qed.







Lemma dist_translate (x0 y0 x1 y1 tx ty : R) :
  dist (x0 + tx) (y0 + ty) (x1 + tx) (y1 + ty) = dist x0 y0 x1 y1.
Proof. unfold dist. f_equal. ring. Qed.




End MoreGeometry.

(** ** A line and a circle *)

Section SegmentLine.

Local Open Scope R_scope.

Variables x1 y1 x2 y2 xc yc r : R.

Let dx := x2 - x1.
Let dy := y2 - y1.
Let n := dx * dx + dy * dy.
Let t := ((xc - x1) * dx + (yc - y1) * dy) / n.
Let ex := (1 - t) * x1 + t * x2.
Let ey := (1 - t) * y1 + t * y2.
Let delta := line_dist x1 y1 x2 y2 xc yc.

Hypothesis Hn : 0 < n.

(** the distance the source computes, from the centre to the projected
    point E, is the distance from the centre to the line *)
Lemma foot_distance : sqrt ((ex - xc) * (ex - xc) + (ey - yc) * (ey - yc)) = delta.
Proof.
  set (cr := (xc - x1) * dy - (yc - y1) * dx).
  assert (Hsn : 0 < sqrt n) by (apply sqrt_lt_R0; exact Hn).
  assert (Hsn2 : sqrt n * sqrt n = n) by (apply sqrt_sqrt; lra).
  assert (Hd : delta = Rabs cr / sqrt n) by reflexivity.
  assert (Hd0 : 0 <= delta).
  { rewrite Hd. apply Rmult_le_pos; [apply Rabs_pos |].
    apply Rlt_le, Rinv_0_lt_compat, Hsn. }
  assert (Hdd : delta * delta = cr * cr / n).
  { rewrite Hd.
    replace (Rabs cr / sqrt n * (Rabs cr / sqrt n))
      with (Rabs cr * Rabs cr / (sqrt n * sqrt n)) by (field; lra).
    rewrite Hsn2. f_equal.
    unfold Rabs. destruct (Rcase_abs cr); ring. }
  rewrite <- (sqrt_square delta Hd0), Hdd. f_equal.
  assert (Htn : t * n = (xc - x1) * dx + (yc - y1) * dy) by (unfold t; field; lra).
  assert (E1 : (ex - xc) * n = - cr * dy).
  { unfold ex. replace (((1 - t) * x1 + t * x2 - xc) * n)
      with ((x1 - xc) * n + (t * n) * dx) by (unfold dx; ring).
    rewrite Htn. unfold cr, n. ring. }
  assert (E2 : (ey - yc) * n = cr * dx).
  { unfold ey. replace (((1 - t) * y1 + t * y2 - yc) * n)
      with ((y1 - yc) * n + (t * n) * dy) by (unfold dy; ring).
    rewrite Htn. unfold cr, n. ring. }
  apply (Rmult_eq_reg_r (n * n)); [| nra].
  replace (((ex - xc) * (ex - xc) + (ey - yc) * (ey - yc)) * (n * n))
    with (((ex - xc) * n) * ((ex - xc) * n) + ((ey - yc) * n) * ((ey - yc) * n)) by ring.
  rewrite E1, E2.
  replace (cr * cr / n * (n * n)) with (cr * cr * n) by (field; lra).
  unfold n. ring.
Qed.

Lemma foot_perpendicular : (ex - xc) * dx + (ey - yc) * dy = 0.
Proof.
  assert (Htn : t * n = (xc - x1) * dx + (yc - y1) * dy) by (unfold t; field; lra).
  replace ((ex - xc) * dx + (ey - yc) * dy)
    with ((x1 - xc) * dx + (y1 - yc) * dy + t * n) by (unfold ex, ey, n, dx, dy; ring).
  rewrite Htn. ring.
Qed.

(** the function at [R] for two distinct points *)
Lemma CircleSegmentIntersection_R :
  TSMT_CircleSegmentIntersection x1 y1 x2 y2 xc yc r =
    if Rltb (Rabs (delta - r)) 0.0001 then [XY.mk ex ey]
    else if Rltb delta r then
      let dt := sqrt (Rabs (r * r - delta * delta)) / sqrt n in
      [XY.mk ((t - dt) * dx + x1) ((t - dt) * dy + y1);
       XY.mk ((t + dt) * dx + x1) ((t + dt) * dy + y1)]
    else [].
Proof.
  rewrite <- foot_distance.
  unfold TSMT_CircleSegmentIntersection. js_R.
  replace (Q2R 1) with 1 by lra. reflexivity.
Qed.


End SegmentLine.

Section SegmentExample.

Local Open Scope R_scope.


End SegmentExample.

(** ** Tangents from a point *)

Section Tangents.

Local Open Scope R_scope.

(** the checked intersection at [R] *)
Lemma CircleCircleIntersection_R (xc1 yc1 r1 xc2 yc2 r2 : R) :
  TSMT_CircleCircleIntersection xc1 yc1 r1 xc2 yc2 r2 =
    if Rleb r1 0 || Rleb r2 0 then []
    else TSMT_CircleToCircleIntersection xc1 yc1 r1 xc2 yc2 r2.
Proof.
  unfold TSMT_CircleCircleIntersection. js_R2. cbn [negb orb].
  replace (Q2R 0) with 0 by lra.
  destruct (Rleb r1 0), (Rleb r2 0); reflexivity.
Qed.

Lemma dist_sq_eq (x0 y0 x1 y1 d : R) :
  dist x0 y0 x1 y1 = d ->
  (x1 - x0) * (x1 - x0) + (y1 - y0) * (y1 - y0) = d * d.
Proof. intros <-. symmetry. apply dist_sq. Qed.


End Tangents.

(** ** Gaps between two circles *)

Section GapsProofs.

Local Open Scope R_scope.

Lemma Point_new_R (x y : R) :
  Point.new x y = Point.mk x y false (sqrt (x * x + y * y)).
Proof. reflexivity. Qed.

Lemma Point_distance_R (p q : Point.t R) :
  Point.distance p q = dist (Point._x p) (Point._y p) (Point._x q) (Point._y q).
Proof. reflexivity. Qed.

(** the distance of two points of a line, by their parameters *)
Lemma dist_on_line (a b dx dy s s' : R) :
  dist (s * dx + a) (s * dy + b) (s' * dx + a) (s' * dy + b)
  = Rabs (s' - s) * sqrt (dx * dx + dy * dy).
Proof.
  unfold dist.
  replace ((s' * dx + a - (s * dx + a)) * (s' * dx + a - (s * dx + a))
           + (s' * dy + b - (s * dy + b)) * (s' * dy + b - (s * dy + b)))
    with ((s' - s) * (s' - s) * (dx * dx + dy * dy)) by ring.
  rewrite sqrt_mult_alt
    by (pose proof (Rle_0_sqr (s' - s)) as Hq; unfold Rsqr in Hq; exact Hq).
  f_equal. fold (Rsqr (s' - s)). apply sqrt_Rsqr_abs.
Qed.

Variables a b r1 c d r2 : R.

Let dx := c - a.
Let dy := d - b.
Let L := dist a b c d.

Hypothesis HL : 0 < L.

Lemma centres_sq : L * L = dx * dx + dy * dy.
Proof. apply dist_sq. Qed.

Lemma centres_apart : 0 < (c - a) * (c - a) + (d - b) * (d - b).
Proof. fold dx dy. rewrite <- centres_sq. nra. Qed.

Lemma centres_sqrt : sqrt (dx * dx + dy * dy) = L.
Proof. reflexivity. Qed.

Lemma centre_on_line_outer : line_dist a b c d a b = 0.
Proof.
  unfold line_dist.
  replace ((a - a) * (d - b) - (b - b) * (c - a)) with 0 by ring.
  rewrite Rabs_R0. unfold Rdiv. ring.
Qed.

Lemma centre_on_line_inner : line_dist a b c d c d = 0.
Proof.
  unfold line_dist.
  replace ((c - a) * (d - b) - (d - b) * (c - a)) with 0 by ring.
  rewrite Rabs_R0. unfold Rdiv. ring.
Qed.

(** the line through the centres meets the outer circle at the parameters
    -r1/L and r1/L *)
Lemma outer_points :
  0.0001 <= r1 ->
  TSMT_CircleSegmentIntersection a b c d a b r1 =
    [XY.mk ((0 - r1 / L) * dx + a) ((0 - r1 / L) * dy + b);
     XY.mk ((0 + r1 / L) * dx + a) ((0 + r1 / L) * dy + b)].
Proof.
  intros Hr.
  rewrite (CircleSegmentIntersection_R a b c d a b r1 centres_apart). cbv zeta.
  rewrite centre_on_line_outer.
  rewrite (Rltb_false' (Rabs (0 - r1)) 0.0001)
    by (unfold Rabs; destruct (Rcase_abs (0 - r1)); lra).
  rewrite (Rltb_true' 0 r1) by lra.
  fold dx dy. rewrite centres_sqrt.
  replace (r1 * r1 - 0 * 0) with (r1 * r1) by ring.
  rewrite (Rabs_pos_eq (r1 * r1)) by nra.
  rewrite (sqrt_square r1) by lra.
  replace (((a - a) * dx + (b - b) * dy) / (dx * dx + dy * dy)) with 0
    by (rewrite <- centres_sq; field; nra).
  reflexivity.
Qed.

(** and the inner circle at 1 - r2/L and 1 + r2/L *)
Lemma inner_points_two :
  0.0001 <= r2 ->
  TSMT_CircleSegmentIntersection a b c d c d r2 =
    [XY.mk ((1 - r2 / L) * dx + a) ((1 - r2 / L) * dy + b);
     XY.mk ((1 + r2 / L) * dx + a) ((1 + r2 / L) * dy + b)].
Proof.
  intros Hr.
  rewrite (CircleSegmentIntersection_R a b c d c d r2 centres_apart). cbv zeta.
  rewrite centre_on_line_inner.
  rewrite (Rltb_false' (Rabs (0 - r2)) 0.0001)
    by (unfold Rabs; destruct (Rcase_abs (0 - r2)); lra).
  rewrite (Rltb_true' 0 r2) by lra.
  fold dx dy. rewrite centres_sqrt.
  replace (r2 * r2 - 0 * 0) with (r2 * r2) by ring.
  rewrite (Rabs_pos_eq (r2 * r2)) by nra.
  rewrite (sqrt_square r2) by lra.
  replace ((dx * dx + dy * dy) / (dx * dx + dy * dy)) with 1
    by (rewrite <- centres_sq; field; nra).
  reflexivity.
Qed.

(** a radius below the tangent tolerance gives a single point *)
Lemma inner_points_one :
  0 < r2 < 0.0001 ->
  exists e, TSMT_CircleSegmentIntersection a b c d c d r2 = [e].
Proof.
  intros Hr.
  rewrite (CircleSegmentIntersection_R a b c d c d r2 centres_apart). cbv zeta.
  rewrite centre_on_line_inner.
  rewrite (Rltb_true' (Rabs (0 - r2)) 0.0001)
    by (unfold Rabs; destruct (Rcase_abs (0 - r2)); lra).
  eauto.
Qed.

Lemma outer_points_one :
  0 < r1 < 0.0001 ->
  exists e, TSMT_CircleSegmentIntersection a b c d a b r1 = [e].
Proof.
  intros Hr.
  rewrite (CircleSegmentIntersection_R a b c d a b r1 centres_apart). cbv zeta.
  rewrite centre_on_line_outer.
  rewrite (Rltb_true' (Rabs (0 - r1)) 0.0001)
    by (unfold Rabs; destruct (Rcase_abs (0 - r1)); lra).
  eauto.
Qed.

(** the function at [R], where every number is finite *)
Lemma CircleGaps_R :
  TSMT_CircleGaps a b r1 c d r2 =
    if Rleb r1 0 || Rleb r2 0 || Rleb r1 r2 then Some None
    else
      let outerPoints := TSMT_CircleSegmentIntersection a b c d a b r1 in
      match outerPoints with
      | [] => Some None
      | _ =>
          let innerPoints := TSMT_CircleSegmentIntersection a b c d c d r2 in
          match nth_error outerPoints 0, nth_error outerPoints 1,
                nth_error innerPoints 0, nth_error innerPoints 1 with
          | Some p0, Some p1, Some q0, Some q1 =>
              Some (Some (Gaps_select (Point.new (XY.x p0) (XY.y p0))
                                      (Point.new (XY.x p1) (XY.y p1))
                                      (Point.new (XY.x q0) (XY.y q0))
                                      (Point.new (XY.x q1) (XY.y q1))))
          | _, _, _, _ => None
          end
      end.
Proof.
  unfold TSMT_CircleGaps. js_R2. cbn [negb orb].
  replace (Q2R 0) with 0 by lra. reflexivity.
Qed.


End GapsProofs.

Section GapsExample.

Local Open Scope R_scope.


End GapsExample.

(** ** Concentric circles in binary64 *)

Section GapsNaN.

Import SpecFloat FloatAxioms.

(** a segment whose direction is zero (or NaN) in both coordinates meets no
    circle *)
Lemma CircleSegmentIntersection_no_direction (x1 y1 x2 y2 xc yc r : float) :
  zero_or_NaN64 (PrimFloat.sub x2 x1) ->
  zero_or_NaN64 (PrimFloat.sub y2 y1) ->
  TSMT_CircleSegmentIntersection x1 y1 x2 y2 xc yc r = [].
Proof.
  intros Hx Hy.
  unfold TSMT_CircleSegmentIntersection.
  cbn [nadd nsub nmul ndiv Math_sqrt Math_abs nltb float_Number].
  set (t := PrimFloat.div _ _).
  assert (Ht : NaN64 t).
  { apply div_zero_zero; apply add_zero; auto using mul_zero_r. }
  set (d := PrimFloat.sqrt _).
  assert (Hd : NaN64 d).
  { apply nan_sqrt, nan_add_l, nan_mul_l, nan_sub_l, nan_add_l, nan_mul_l,
      nan_sub_r, Ht. }
  rewrite (nan_ltb_l (PrimFloat.abs (PrimFloat.sub d r)))
    by now apply nan_abs, nan_sub_l.
  rewrite (nan_ltb_l d r Hd). reflexivity.
Qed.

(** X11: in binary64, TSMT$CircleGaps of two circles with the same centre
    returns null, for every centre and all radii: when no guard returns
    null before, the line through the two centres has no direction, the
    intersection with the outer circle is empty, and null is returned; no
    gap is computed for concentric circles. *)
Theorem CircleGaps_concentric_null (a b r1 r2 : float) :
  TSMT_CircleGaps a b r1 a b r2 = Some None.
Proof.
  unfold TSMT_CircleGaps.
  destruct (isNaN a) eqn:Ha; [reflexivity |].
  destruct (isNaN b) eqn:Hb;
    [destruct (negb (isFinite a)); reflexivity |].
  destruct (false || negb (isFinite a) || false || negb (isFinite b));
    [reflexivity |].
  destruct ((r1 <=? lit 0)%js || (r2 <=? lit 0)%js || (r1 <=? r2)%js);
    [reflexivity |].
  rewrite CircleSegmentIntersection_no_direction; [reflexivity | |];
    apply sub_of_equal.
  - cbn in Ha. unfold PrimFloat.is_nan in Ha. apply negb_false_iff in Ha. exact Ha.
  - cbn in Hb. unfold PrimFloat.is_nan in Hb. apply negb_false_iff in Hb. exact Hb.
Qed.

End GapsNaN.

(** ** The point class *)

Section PointCache.

Context {A : Type} `{Number A} `{Finite A}.

Lemma Point_new_coherent (x y : A) : Point_coherent (Point.new x y).
Proof. intros _. reflexivity. Qed.

Lemma Point_perform_coherent (p : Point.t A) (c : Point.call) :
  Point_coherent p -> Point_coherent (Point.perform p c).
Proof.
  intros Hp. destruct c as [v | v |]; cbn.
  - intros Hf. discriminate.
  - intros Hf. discriminate.
  - unfold Point.length. destruct (Point._invalidated p) eqn:E; cbn.
    + intros _. reflexivity.
    + exact Hp.
Qed.

Lemma Point_length_coherent (p : Point.t A) :
  Point_coherent p ->
  fst (Point.length p)
  = Math_sqrt (Point._x p * Point._x p + Point._y p * Point._y p)%js.
Proof.
  intros Hp. unfold Point.length.
  destruct (Point._invalidated p) eqn:E; cbn; [reflexivity | exact (Hp E)].
Qed.

(** X12: the cached norm of a TSMT$Point is never stale: after the
    constructor and any sequence of calls of the setters of x and y and of
    length(), length() returns the square root of x*x + y*y of the current
    coordinates, and it changes neither coordinate.  This holds for any
    number type, binary64 included. *)
Theorem Point_length_never_stale (x y : A) (calls : list Point.call) :
  let p := fold_left Point.perform calls (Point.new x y) in
  fst (Point.length p)
  = Math_sqrt (Point.x p * Point.x p + Point.y p * Point.y p)%js
  /\ Point.x (snd (Point.length p)) = Point.x p
  /\ Point.y (snd (Point.length p)) = Point.y p.
Proof.
  intros p.
  assert (Hp : Point_coherent p).
  { subst p. generalize (Point_new_coherent x y). generalize (Point.new x y).
    induction calls as [| c cs IH]; intros q Hq; cbn; [exact Hq |].
    apply IH, Point_perform_coherent, Hq. }
  split; [apply Point_length_coherent, Hp |].
  unfold Point.length. destruct (Point._invalidated p); split; reflexivity.
Qed.

End PointCache.

(** X13: in binary64 the setters of a TSMT$Point never store NaN or an
    infinity: after [p.x = v] the coordinate x is a finite number, equal to
    v or to 0, and y is unchanged; likewise for [p.y = v]. *)
Theorem Point_setters_sanitise (p : Point.t float) (v : float) :
  (isNaN (Point.x (Point.set_x p v)) = false
   /\ isFinite (Point.x (Point.set_x p v)) = true
   /\ Point.y (Point.set_x p v) = Point.y p)
  /\ (isNaN (Point.y (Point.set_y p v)) = false
      /\ isFinite (Point.y (Point.set_y p v)) = true
      /\ Point.x (Point.set_y p v) = Point.x p)
  /\ (Point.x (Point.set_x p v) = v \/ Point.x (Point.set_x p v) = lit 0)
  /\ (Point.y (Point.set_y p v) = v \/ Point.y (Point.set_y p v) = lit 0).
Proof.
  unfold Point.set_x, Point.set_y, Point.x, Point.y, Point.__assign.
  cbn [Point._x Point._y].
  destruct (negb (isNaN v) && isFinite v) eqn:E.
  - apply andb_true_iff in E. destruct E as [E1 E2]. apply negb_true_iff in E1.
    repeat split; auto.
  - repeat split; auto; vm_compute; reflexivity.
Qed.

Section PointR.

Local Open Scope R_scope.

Lemma sqrt_le_of_sq (u s : R) : 0 <= u -> u * u <= s -> u <= sqrt s.
Proof.
  intros Hu Hs. rewrite <- (sqrt_square u Hu). apply sqrt_le_1_alt. exact Hs.
Qed.

Lemma sqrt_ge_of_sq (u s : R) : 0 <= u -> 0 <= s -> s <= u * u -> sqrt s <= u.
Proof.
  intros Hu Hs0 Hs. rewrite <- (sqrt_square u Hu). apply sqrt_le_1_alt. exact Hs.
Qed.



Lemma dist_triangle (x0 y0 x1 y1 x2 y2 : R) :
  dist x0 y0 x2 y2 <= dist x0 y0 x1 y1 + dist x1 y1 x2 y2.
Proof.
  set (u1 := x1 - x0). set (u2 := y1 - y0). set (v1 := x2 - x1). set (v2 := y2 - y1).
  pose proof (dist_nonneg x0 y0 x1 y1) as Ha. pose proof (dist_nonneg x1 y1 x2 y2) as Hb.
  pose proof (dist_sq x0 y0 x1 y1) as Sa. pose proof (dist_sq x1 y1 x2 y2) as Sb.
  fold u1 u2 in Sa. fold v1 v2 in Sb.
  set (A := dist x0 y0 x1 y1) in *. set (B := dist x1 y1 x2 y2) in *.
  unfold dist at 1.
  replace (x2 - x0) with (u1 + v1) by (unfold u1, v1; ring).
  replace (y2 - y0) with (u2 + v2) by (unfold u2, v2; ring).
  apply sqrt_ge_of_sq;
    [lra
    | pose proof (Rle_0_sqr (u1 + v1)) as Q1; pose proof (Rle_0_sqr (u2 + v2)) as Q2;
      unfold Rsqr in Q1, Q2; lra
    |].
  assert (CS : u1 * v1 + u2 * v2 <= A * B).
  { destruct (Rle_dec (u1 * v1 + u2 * v2) 0) as [Hneg | Hpos]; [nra |].
    apply Rnot_le_lt in Hpos.
    assert (Hsq : (u1 * v1 + u2 * v2) * (u1 * v1 + u2 * v2) <= (A * B) * (A * B)).
    { replace (A * B * (A * B)) with ((A * A) * (B * B)) by ring.
      rewrite Sa, Sb.
      replace ((u1 * u1 + u2 * u2) * (v1 * v1 + v2 * v2))
        with ((u1 * v1 + u2 * v2) * (u1 * v1 + u2 * v2)
              + (u1 * v2 - u2 * v1) * (u1 * v2 - u2 * v1)) by ring.
      pose proof (Rle_0_sqr (u1 * v2 - u2 * v1)) as Hc. unfold Rsqr in Hc. lra. }
    destruct (Rle_dec (u1 * v1 + u2 * v2) (A * B)) as [Hle | Hgt];
      [assumption | exfalso].
    apply Rnot_le_lt in Hgt. assert (0 <= A * B) by nra. nra. }
  nra.
Qed.


End PointR.

(** ** More on the quadrant classifier *)

Section ClassifierMore.

Local Open Scope R_scope.




End ClassifierMore.

(** the classifier returns a number from 0 to 4, for any number type *)
Lemma getQuadrant_bounds {A : Type} `{Number A} (px py left top right bottom : A) :
  (0 <= TSMT_getQuadrant px py left top right bottom <= 4)%Z.
Proof.
  unfold TSMT_getQuadrant.
  repeat match goal with
         | |- context [if ?b then _ else _] => destruct b
         end; lia.
Qed.

(** ** The random walk *)

Section Walk.

Local Open Scope R_scope.

(** the rounded radius of a walk with integer bounds *)
Lemma walk_radius (low high : Z) (u : R) :
  (low <= high)%Z -> 0 <= u < 1 ->
  exists r : Z, (low <= r <= high)%Z
    /\ Rround (IZR low - 0.499 + u * (IZR high + 0.499 - (IZR low - 0.499))) = IZR r.
Proof.
  intros Hlh [Hu0 Hu1]. unfold Rround.
  set (v := IZR low - 0.499 + u * (IZR high + 0.499 - (IZR low - 0.499)) + 1 / 2).
  exists (Zfloor v). split; [| reflexivity].
  assert (Hlh' : IZR low <= IZR high) by (apply IZR_le; exact Hlh).
  assert (Hv : IZR low <= v < IZR high + 1).
  { unfold v. split; nra. }
  pose proof (Zfloor_bound v) as [Hf1 Hf2].
  split.
  - apply Zfloor_lub. lra.
  - assert (Hlt : IZR (Zfloor v) < IZR (high + 1)) by (rewrite plus_IZR; lra).
    apply lt_IZR in Hlt. lia.
Qed.

(** the four directions of a step of radius [r] *)
Lemma pointRandomWalk_directions (px py low high u t : R) (r : Z) :
  Rround (low - 0.499 + u * (high + 0.499 - (low - 0.499))) = IZR r ->
  let P := pointRandomWalk px py low high u t in
  (fst P = px + IZR r /\ snd P = py)
  \/ (fst P = px - IZR r /\ snd P = py)
  \/ (fst P = px /\ snd P = py + IZR r)
  \/ (fst P = px /\ snd P = py - IZR r).
Proof.
  intros Hround.
  unfold pointRandomWalk. js_R.
  replace (Q2R 0.499) with 0.499 by lra.
  rewrite Hround.
  destruct (Rltb t (Q2R 0.25)); [cbn; auto |].
  destruct (Rltb t (Q2R 0.5)); [cbn; auto |].
  destruct (Rltb t (Q2R 0.75)); cbn; auto.
Qed.



End Walk.

(** ** The canvas directive: ids, buckets and the cached list *)

Lemma Number_toString_inj (i j : nat) :
  Number_toString i = Number_toString j -> i = j.
Proof.
  intros Heq. pose proof (index_of_toString i) as Hi.
  rewrite Heq, index_of_toString in Hi. congruence.
Qed.

Lemma Object_keys_set_fresh (o : JsRecord) (k : string) (v : bool) :
  ~ In k (Object_keys o) -> Object_keys (JsRecord_set o k v) = Object_keys o ++ [k].
Proof.
  induction o as [| [k' v'] o IH]; cbn; intros Hk; [reflexivity |].
  destruct (String.eqb_spec k' k) as [-> | Hne]; [tauto |].
  cbn. f_equal. apply IH. tauto.
Qed.

Lemma ascending_ids_weaken (i : nat) (o : JsRecord) :
  ascending_ids i o -> ascending_ids (S i) o.
Proof.
  intros (idx & Hk & Hs & Hb). exists idx. repeat split; try assumption.
  eapply Forall_impl; [| exact Hb]. cbn. lia.
Qed.

Lemma ascending_ids_set (i : nat) (o : JsRecord) :
  ascending_ids i o -> ascending_ids (S i) (JsRecord_set o (Number_toString i) true).
Proof.
  intros (idx & Hk & Hs & Hb). exists (idx ++ [i]). repeat split.
  - rewrite Object_keys_set_fresh, Hk, map_app; [reflexivity |].
    rewrite Hk. intros Hin. apply in_map_iff in Hin. destruct Hin as (j & Hj & Hin).
    apply Number_toString_inj in Hj. subst j.
    rewrite Forall_forall in Hb. specialize (Hb i Hin). lia.
  - clear Hk. induction Hs as [| x l Hs IH Hx]; cbn.
    + repeat constructor.
    + apply Forall_cons_iff in Hb. destruct Hb as [Hxi Hb].
      constructor; [apply IH, Hb |].
      apply Forall_app. split; [exact Hx | constructor; [exact Hxi | constructor]].
  - apply Forall_app. split.
    + eapply Forall_impl; [| exact Hb]. cbn. lia.
    + constructor; [lia | constructor].
Qed.

Lemma sorted_NoDup (l : list nat) : StronglySorted lt l -> NoDup l.
Proof.
  induction 1 as [| x l Hs IH Hx]; constructor; [| exact IH].
  intros Hin. rewrite Forall_forall in Hx. specialize (Hx x Hin). lia.
Qed.

Section Canvas.

Context {A : Type} `{Number A}.

(** X20: after ngOnInit the array of circles has NUM_CIRCLES elements, and
    the circle at index k has the id [k.toString()] and the k-th drawn
    centre and radius; so the lookup [this._circleRefs[+id]] that next
    makes with the id of a circle gives that circle back. *)
Theorem circle_ids_are_indices (w h : A) (draws : nat -> A * A * A) :
  let s0 := ngOnInit w h draws in
  List.length (_circleRefs s0) = CircleService.NUM_CIRCLES
  /\ forall k c, nth_error (_circleRefs s0) k = Some c ->
       Circle.id c = Number_toString k
       /\ circle_at (_circleRefs s0) (Circle.id c) = Some c
       /\ (Circle.x c, Circle.y c, Circle.radius c) = draws k.
Proof.
  intros s0.
  assert (Hrefs : _circleRefs s0
                  = List.map (fun k => new_circle w h k (draws k))
                             (seq 0 CircleService.NUM_CIRCLES)).
  { unfold s0, ngOnInit, __initCircles. rewrite initCircles_loop_refs. reflexivity. }
  split.
  - rewrite Hrefs, length_map, length_seq. reflexivity.
  - intros k c Hk.
    assert (Hc : c = new_circle w h k (draws k)).
    { rewrite Hrefs in Hk. rewrite nth_error_map in Hk.
      destruct (nth_error (seq 0 CircleService.NUM_CIRCLES) k) as [j |] eqn:Hj;
        [| discriminate].
      assert (j = k).
      { pose proof (nth_error_nth _ _ 0%nat Hj) as Hn.
        assert (Hlt : (k < List.length (seq 0 CircleService.NUM_CIRCLES))%nat)
          by (apply nth_error_Some; congruence).
        rewrite length_seq in Hlt.
        rewrite seq_nth in Hn; [lia | exact Hlt]. }
      subst j. cbn in Hk. congruence. }
    assert (Hid : Circle.id c = Number_toString k) by (rewrite Hc; reflexivity).
    split; [exact Hid |]. split.
    + unfold circle_at. rewrite Hid, index_of_toString. exact Hk.
    + rewrite Hc. cbn. destruct (draws k) as [[x y] r]. reflexivity.
Qed.

Lemma ascending_ids_loop (draws : nat -> A * A * A) (n : nat) :
  forall i s,
    (forall q b, quad_property s q = Some b -> ascending_ids i b) ->
    forall q b, quad_property (initCircles_loop draws n i s) q = Some b ->
      ascending_ids (i + n) b.
Proof.
  induction n as [| n IH]; intros i s Hs q b Hq; cbn in Hq.
  - rewrite Nat.add_0_r. eauto.
  - replace (i + S n)%nat with (S i + n)%nat by lia.
    refine (IH (S i) (initCircles_body i (draws i) s) _ q b Hq).
    intros q' b' Hq'.
    destruct (initCircles_body_spec i (draws i) s) as (_ & _ & _ & _ & _ & Hb).
    destruct (Hb q' b' Hq') as (b0 & Hb0 & ->).
    specialize (Hs q' b0 Hb0).
    destruct (Circle_inQuadrant _ q').
    + cbn [new_circle Circle.id]. apply ascending_ids_set, Hs.
    + apply ascending_ids_weaken, Hs.
Qed.

(** X21: after ngOnInit, the key list of each of the four buckets is the
    list of the ids [k.toString()] of a strictly increasing list of indices
    k < NUM_CIRCLES, in that order; in particular no id occurs twice, so a
    step tests no circle twice.  This holds whatever circles the quadrant
    test of TSMT$Circle puts into the bucket. *)
Theorem bucket_keys_ascending (w h : A) (draws : nat -> A * A * A) (q : Z) (b : JsRecord) :
  quad_property (ngOnInit w h draws) q = Some b ->
  NoDup (Object_keys b)
  /\ exists idx : list nat,
       Object_keys b = List.map Number_toString idx
       /\ StronglySorted lt idx
       /\ Forall (fun k => (k < CircleService.NUM_CIRCLES)%nat) idx.
Proof.
  intros Hq.
  assert (Hasc : ascending_ids (0 + CircleService.NUM_CIRCLES) b).
  { refine (ascending_ids_loop draws CircleService.NUM_CIRCLES 0 (ngOnInit_start w h)
              _ q b Hq).
    intros q' b' Hq'.
    destruct (quad_property_inv _ q' b' Hq') as [[_ ->] | [[_ ->] | [[_ ->] | [_ ->]]]];
      exists []; repeat split; constructor. }
  split; [| exact Hasc].
  destruct Hasc as (idx & -> & Hs & _).
  apply sorted_NoDup in Hs. clear Hq.
  induction Hs as [| x l Hx Hs IH]; cbn; constructor; [| exact IH].
  intros Hin. apply in_map_iff in Hin. destruct Hin as (j & Hj & Hin).
  apply Number_toString_inj in Hj. subst j. exact (Hx Hin).
Qed.

(** the loop over the cached ids tests every id, and emits and marks
    those whose circle contains the point *)
Lemma check_forEach_filter (px py : A) (refs : list (Circle.t A)) (ids : list string) :
  forall identified log identified' log',
    check_forEach px py refs ids identified log = Some (identified', log') ->
    tested log' = tested log ++ ids
    /\ emitted log' = emitted log ++ filter (hit px py refs) ids
    /\ identified' = identified ++ circles_of refs (filter (hit px py refs) ids).
Proof.
  induction ids as [| id ids IH]; intros identified log identified' log' Hf; cbn in Hf.
  - injection Hf as <- <-. cbn. rewrite !app_nil_r. auto.
  - destruct (index_of_id id) as [i |] eqn:Hi; cbn in Hf; [| discriminate].
    destruct (nth_error refs i) as [c |] eqn:Hc; [| discriminate].
    assert (Hat : circle_at refs id = Some c) by (unfold circle_at; rewrite Hi; exact Hc).
    assert (Hhit : hit px py refs id
                   = TSMT_PointInCircle px py (Circle.x c) (Circle.y c) (Circle.radius c))
      by (unfold hit; rewrite Hat; reflexivity).
    cbn [filter]. rewrite Hhit.
    destruct (TSMT_PointInCircle px py _ _ _) eqn:Hin;
      apply IH in Hf; cbn in Hf; destruct Hf as (Ht & He & Hid).
    + rewrite Ht, He, Hid, <- !app_assoc. cbn [circles_of flat_map app].
      rewrite Hat. auto.
    + rewrite Ht, He, Hid, <- !app_assoc. auto.
Qed.

(** a step in a quadrant tests the list it leaves in [_check]; a step
    outside tests nothing *)
Lemma next_tested (u t : A) (s s' : PicCanvasDirective A) (log : StepLog) :
  next u t s = Some (s', log) ->
  ((1 <= _curQuad s' <= 4)%Z -> _check s' = Some (tested log))
  /\ (~ (1 <= _curQuad s' <= 4)%Z -> tested log = []).
Proof.
  intros Hnext.
  destruct (next_result u t s s' log Hnext) as (Hcur & _ & Hin & Hout).
  rewrite Hcur. split.
  - intros Hq. destruct (Hin Hq) as (_ & ids & Hchk & Htests & _).
    unfold tests in Htests. cbn [fst snd] in Htests.
    apply check_forEach_filter in Htests. cbn in Htests.
    destruct Htests as (Ht & _). congruence.
  - intros Hq. destruct (Hout Hq) as [-> _]. reflexivity.
Qed.

(** X22: in every step of the canvas directive that succeeds, the ids
    emitted are exactly the tested ids whose circle contains the new
    position of the point, in the order of the tested list, and the circles
    left in [_identified] are the circles of the emitted ids; the tested
    list is the cached list when the point is in a quadrant 1..4, and empty
    otherwise.  No id is emitted for a circle that does not contain the
    point. *)
Theorem next_emits_hits (u t : A) (s s' : PicCanvasDirective A) (log : StepLog) :
  next u t s = Some (s', log) ->
  emitted log = filter (hit (_px s') (_py s') (_circleRefs s')) (tested log)
  /\ _identified s' = circles_of (_circleRefs s') (emitted log)
  /\ ((1 <= _curQuad s' <= 4)%Z -> _check s' = Some (tested log))
  /\ (~ (1 <= _curQuad s' <= 4)%Z -> tested log = []).
Proof.
  intros Hnext.
  destruct (next_tested u t s s' log Hnext) as [Htin Htout].
  destruct (next_result u t s s' log Hnext) as (Hcur & Hrefs & Hin & Hout).
  assert (Hlog : emitted log = filter (hit (_px s') (_py s') (_circleRefs s')) (tested log)
                 /\ _identified s' = circles_of (_circleRefs s') (emitted log)).
  { rewrite Hcur in Htin, Htout.
    set (q := quadrant_at s (walk s u t)) in *.
    destruct (Z_le_dec 1 q) as [H1 | H1]; [destruct (Z_le_dec q 4) as [H4 | H4] |].
    - destruct (Hin (conj H1 H4)) as (_ & ids & Hchk & Htests & _).
      unfold tests in Htests. cbn [fst snd] in Htests.
      apply check_forEach_filter in Htests. cbn in Htests.
      destruct Htests as (Ht & He & Hid).
      rewrite Hrefs, Ht, He, Hid. split; reflexivity.
    - destruct Hout as [-> Hid]; [lia |]. rewrite Hid. split; reflexivity.
    - destruct Hout as [-> Hid]; [lia |]. rewrite Hid. split; reflexivity. }
  destruct Hlog as [He Hid].
  split; [exact He |]. split; [exact Hid |]. split; assumption.
Qed.

Lemma next_cache_coherent (s0 s s' : PicCanvasDirective A) (u t : A) (log : StepLog) :
  same_circles s0 s -> cache_coherent s0 s ->
  next u t s = Some (s', log) ->
  cache_coherent s0 s'
  /\ (0 <= _curQuad s' <= 4)%Z
  /\ ((1 <= _curQuad s' <= 4)%Z ->
        _prevQuad s' = _curQuad s'
        /\ Some (tested log) = option_map Object_keys (quad_property s0 (_curQuad s')))
  /\ (_curQuad s' = 0%Z ->
        _prevQuad s' = _prevQuad s /\ _check s' = _check s /\ tested log = []).
Proof.
  intros (Hr & Hw & Hh & Hq) Hcoh Hnext.
  destruct (next_tested u t s s' log Hnext) as (Htin & Htout).
  destruct (next_result u t s s' log Hnext) as (Hcur & Hrefs & Hin & Hout).
  assert (Hrange : (0 <= _curQuad s' <= 4)%Z).
  { rewrite Hcur. apply getQuadrant_bounds. }
  assert (Hinside : (1 <= _curQuad s' <= 4)%Z ->
            _prevQuad s' = _curQuad s'
            /\ _check s' = option_map Object_keys (quad_property s0 (_curQuad s'))).
  { intros Hc. rewrite Hcur in Hc |- *.
    destruct (Hin Hc) as (Hp & ids & Hchk & _ & Hsame & Hdiff).
    split; [exact Hp |]. rewrite Hchk.
    destruct (Z.eq_dec (_prevQuad s) (quadrant_at s (walk s u t))) as [Heq | Hne].
    - specialize (Hsame Heq).
      destruct Hcoh as [[Hm _] | [_ Hc']]; [lia |].
      rewrite <- Heq, <- Hc'. symmetry. exact Hsame.
    - rewrite <- Hq. symmetry. exact (Hdiff Hne). }
  assert (Houtside : _curQuad s' = 0%Z ->
            _prevQuad s' = _prevQuad s /\ _check s' = _check s).
  { intros Hz. rewrite Hcur in Hz.
    assert (Hb : (0 <? quadrant_at s (walk s u t))%Z
                 && (quadrant_at s (walk s u t) <? 5)%Z = false)
      by (rewrite Hz; reflexivity).
    rewrite (next_outside u t s Hb) in Hnext.
    injection Hnext as <- _. cbn. auto. }
  split; [| split; [exact Hrange | split]].
  - destruct (Z.eq_dec (_curQuad s') 0) as [Hz | Hnz].
    + destruct (Houtside Hz) as [Hp Hc]. unfold cache_coherent.
      rewrite Hp, Hc. exact Hcoh.
    + right. destruct Hinside as [Hp Hc]; [lia |].
      rewrite Hp. split; [lia | exact Hc].
  - intros Hc. destruct (Hinside Hc) as [Hp Hchk].
    split; [exact Hp |]. rewrite <- Hchk. symmetry. apply Htin, Hc.
  - intros Hz. destruct (Houtside Hz) as [Hp Hchk].
    split; [exact Hp |]. split; [exact Hchk |]. apply Htout. lia.
Qed.

Lemma initCircles_loop_cache (draws : nat -> A * A * A) (n : nat) :
  forall i s,
    _check (initCircles_loop draws n i s) = _check s
    /\ _prevQuad (initCircles_loop draws n i s) = _prevQuad s.
Proof.
  induction n as [| n IH]; intros i s; cbn; [auto |].
  destruct (IH (S i) (initCircles_body i (draws i) s)) as [-> ->].
  destruct (initCircles_body_spec i (draws i) s) as (_ & _ & _ & Hc & Hp & _).
  auto.
Qed.

Lemma trace_coherent (s0 : PicCanvasDirective A) (rnd : list (A * A)) :
  forall s, well_formed s -> cache_coherent s0 s -> same_circles s0 s ->
  exists tr, trace rnd s = Some tr /\ Forall (step_coherent s0) tr.
Proof.
  induction rnd as [| [u t] rnd IH]; intros s Hwf Hcoh Hsame.
  - exists []. split; [reflexivity | constructor].
  - destruct (next_total u t s Hwf) as (s' & log & Hnext & Hwf' & Hsame').
    destruct (next_cache_coherent s0 s s' u t log Hsame Hcoh Hnext)
      as (Hcoh' & Hrange & Hin & Hout).
    destruct (IH s' Hwf' Hcoh' (same_circles_trans _ _ _ Hsame Hsame'))
      as (tr & Htr & Hall).
    exists ((s', log) :: tr). split.
    + cbn. rewrite Hnext, Htr. reflexivity.
    + constructor; [| exact Hall]. unfold step_coherent. cbn [fst snd].
      split; [exact Hcoh' |]. split; [exact Hrange |]. split; [exact Hin |].
      intros Hz. apply Hout, Hz.
Qed.

(** X23: the cached id list is never stale.  In every run of the canvas
    directive from ngOnInit, whatever the circles and the random numbers
    are, every step succeeds and leaves a quadrant in 0..4; [_prevQuad] is
    -1 with no cached list until a quadrant 1..4 has been entered, and from
    then on it is the last such quadrant and [_check] is the key list of
    its bucket; a step with the point in a quadrant q in 1..4 tests exactly
    the keys of bucket q, as if the list were recomputed in every step, and
    a step in quadrant 0 tests nothing. *)
Theorem cache_never_stale (w h : A) (draws : nat -> A * A * A) (rnd : list (A * A)) :
  let s0 := ngOnInit w h draws in
  exists tr, trace rnd s0 = Some tr /\ Forall (step_coherent s0) tr.
Proof.
  intros s0.
  destruct (ngOnInit_ok w h draws) as (_ & Hwf & _).
  fold s0 in Hwf.
  apply trace_coherent; [exact Hwf | | apply same_circles_refl].
  left.
  destruct (initCircles_loop_cache draws CircleService.NUM_CIRCLES 0
              (ngOnInit_start w h)) as [Hc Hp].
  split; [exact Hp | exact Hc].
Qed.

End Canvas.

(** the first bucket of a 100 x 100 container whose circles all have the
    centre (75, 25) and the radius 10 *)
Lemma bucket_keys_ascending_witness :
  let b := _quad1 (ngOnInit 100%R 100%R draws_example) in
  NoDup (Object_keys b)
  /\ exists idx : list nat,
       Object_keys b = List.map Number_toString idx
       /\ StronglySorted lt idx
       /\ Forall (fun k => (k < CircleService.NUM_CIRCLES)%nat) idx.
Proof.
  apply (bucket_keys_ascending 100%R 100%R draws_example 1). reflexivity.
Defined.

(** the point walks from (105, 50) to (96, 50), into quadrant 1 and into
    the circle "0" *)
Lemma next_emits_hits_witness :
  exists s' log,
    next (f64 0.5) (f64 0.3) directive_example = Some (s', log)
    /\ tested log = ["0"%string]
    /\ emitted log = filter (hit (_px s') (_py s') (_circleRefs s')) (tested log)
    /\ _identified s' = circles_of (_circleRefs s') (emitted log)
    /\ ((1 <= _curQuad s' <= 4)%Z -> _check s' = Some (tested log))
    /\ (~ (1 <= _curQuad s' <= 4)%Z -> tested log = []).
Proof.
  eexists. eexists.
  split; [vm_compute; reflexivity |].
  split; [reflexivity |].
  apply (next_emits_hits (f64 0.5) (f64 0.3) directive_example).
  vm_compute. reflexivity.
Defined.

(** ** The SVG directive *)

Lemma list_set_length {X : Type} (l : list X) (i : nat) (v : X) :
  List.length (list_set l i v) = List.length l.
Proof.
  revert i. induction l as [| x l IH]; intros [| i]; cbn; try reflexivity.
  now rewrite IH.
Qed.

Lemma list_set_map {X Y : Type} (f : X -> Y) (l : list X) (i : nat) (c v : X) :
  nth_error l i = Some c -> f v = f c -> List.map f (list_set l i v) = List.map f l.
Proof.
  revert i. induction l as [| x l IH]; intros [| i]; cbn; try discriminate.
  - intros [= ->] ->. reflexivity.
  - intros Hc Hf. now rewrite (IH i Hc Hf).
Qed.

Lemma skipn_nth_error {X : Type} (l : list X) (i : nat) (c : X) :
  nth_error l i = Some c -> skipn i l = c :: skipn (S i) l.
Proof.
  revert i. induction l as [| x l IH]; intros [| i]; cbn; try discriminate.
  - now intros [= ->].
  - intros Hc. exact (IH i Hc).
Qed.

Lemma nth_error_defined {X : Type} (l : list X) (i : nat) :
  (i < List.length l)%nat -> exists c, nth_error l i = Some c.
Proof.
  intros Hi. destruct (nth_error l i) as [c |] eqn:Hc; [eauto |].
  apply nth_error_None in Hc. lia.
Qed.

Section SvgProofs.

Context {A : Type} `{Number A}.

(** the loop that moves circles keeps their number, ids and radii *)
Lemma move_loop_spec (rnd : nat -> A) (n : nat) :
  forall i k refs, (i + n <= List.length refs)%nat ->
  exists refs' k',
    Svg.move_loop rnd n i k refs = Some (refs', k')
    /\ List.length refs' = List.length refs
    /\ List.map Circle.id refs' = List.map Circle.id refs
    /\ List.map Circle.radius refs' = List.map Circle.radius refs.
Proof.
  induction n as [| n IH]; intros i k refs Hlen; cbn.
  - exists refs, k. auto.
  - destruct (nleb (rnd k) (lit 0.2)).
    + destruct (nth_error_defined refs i) as [c Hc]; [lia |]. rewrite Hc.
      destruct (pointRandomWalk _ _ _ _ _ _) as [x y].
      set (c' := Circle.mk _ _ _ _ _ _ _ _).
      destruct (IH (S i) (S (S (S k))) (list_set refs i c'))
        as (refs' & k' & -> & Hl & Hid & Hr).
      { rewrite list_set_length. lia. }
      exists refs', k'. split; [reflexivity |].
      rewrite Hl, Hid, Hr, list_set_length.
      rewrite (list_set_map Circle.id refs i c c' Hc eq_refl).
      rewrite (list_set_map Circle.radius refs i c c' Hc eq_refl). auto.
    + apply IH. lia.
Qed.

(** the loop that checks the circles collects those that contain the
    point, in the order of the array *)
Lemma scan_loop_spec (px py : A) (refs : list (Circle.t A)) (n : nat) :
  forall i identified emitted, (i + n <= List.length refs)%nat ->
  let found := filter (contains px py) (firstn n (skipn i refs)) in
  Svg.scan_loop px py refs n i identified emitted
  = Some (identified ++ found, emitted ++ List.map Circle.id found).
Proof.
  induction n as [| n IH]; intros i identified emitted Hlen; cbn.
  - now rewrite !app_nil_r.
  - destruct (nth_error_defined refs i) as [c Hc]; [lia |]. rewrite Hc.
    rewrite (skipn_nth_error refs i c Hc). cbn [firstn filter].
    change (TSMT_PointInCircle px py (Circle.x c) (Circle.y c) (Circle.radius c))
      with (contains px py c).
    destruct (contains px py c); rewrite IH by lia; cbv zeta;
      rewrite <- ?app_assoc; reflexivity.
Qed.

(** a step of a directive with NUM_CIRCLES circles *)
Lemma Svg_next_spec (rnd : nat -> A) (k : nat) (s : Svg.t A) :
  List.length (Svg._circleRefs s) = CircleService.NUM_CIRCLES ->
  let P := pointRandomWalk (Svg._px s) (Svg._px s)
             (lit CircleService.LOW_RADIUS) (lit CircleService.HIGH_RADIUS)
             (rnd k) (rnd (S k)) in
  exists refs' k',
    List.length refs' = CircleService.NUM_CIRCLES
    /\ List.map Circle.id refs' = List.map Circle.id (Svg._circleRefs s)
    /\ List.map Circle.radius refs' = List.map Circle.radius (Svg._circleRefs s)
    /\ Svg.next rnd k s
       = Some (Svg.mk refs' (filter (contains (fst P) (snd P)) refs')
                 (Svg._width s) (Svg._height s) (fst P) (snd P),
               List.map Circle.id (filter (contains (fst P) (snd P)) refs'), k').
Proof.
  intros Hlen P. subst P. unfold Svg.next.
  destruct (pointRandomWalk _ _ _ _ _ _) as [px py]. cbn [fst snd].
  destruct (move_loop_spec rnd CircleService.NUM_CIRCLES 0 (S (S k)) (Svg._circleRefs s))
    as (refs' & k' & -> & Hl & Hid & Hr); [lia |].
  rewrite scan_loop_spec by lia.
  cbn [skipn app].
  rewrite firstn_all2 by lia.
  exists refs', k'. repeat split; congruence.
Qed.

(** X24: a step of the SVG directive with its NUM_CIRCLES circles succeeds;
    it keeps the number of circles, their ids and their radii (only centres
    move); and it scans every circle: [_identified] is the list of all
    circles, after the moves of this step, that contain the new position of
    the point, in the order of the array, and the ids emitted are theirs. *)
Theorem Svg_next_full_scan (rnd : nat -> A) (k : nat) (s : Svg.t A) :
  List.length (Svg._circleRefs s) = CircleService.NUM_CIRCLES ->
  exists s' emitted k',
    Svg.next rnd k s = Some (s', emitted, k')
    /\ List.length (Svg._circleRefs s') = CircleService.NUM_CIRCLES
    /\ List.map Circle.id (Svg._circleRefs s') = List.map Circle.id (Svg._circleRefs s)
    /\ List.map Circle.radius (Svg._circleRefs s')
       = List.map Circle.radius (Svg._circleRefs s)
    /\ Svg._identified s'
       = filter (contains (Svg._px s') (Svg._py s')) (Svg._circleRefs s')
    /\ emitted = List.map Circle.id (Svg._identified s').
Proof.
  intros Hlen.
  destruct (Svg_next_spec rnd k s Hlen) as (refs' & k' & Hl & Hid & Hr & Hnext).
  do 3 eexists. split; [exact Hnext |]. cbn.
  repeat split; assumption.
Qed.

Lemma Svg_initCircles_length (fresh : Circle.t A) (draws : nat -> A * A * A) (n : nat) :
  forall i s,
    List.length (Svg._circleRefs (Svg.initCircles_loop fresh draws n i s))
    = (List.length (Svg._circleRefs s) + n)%nat.
Proof.
  induction n as [| n IH]; intros i s; cbn; [lia |].
  destruct (draws i) as [[x y] r]. rewrite IH. cbn. rewrite length_app. cbn. lia.
Qed.

End SvgProofs.

Lemma Svg_next_full_scan_witness :
  exists s' emitted k',
    Svg.next always_half 0 svg_example = Some (s', emitted, k')
    /\ List.length (Svg._circleRefs s') = CircleService.NUM_CIRCLES
    /\ List.map Circle.id (Svg._circleRefs s')
       = List.map Circle.id (Svg._circleRefs svg_example)
    /\ List.map Circle.radius (Svg._circleRefs s')
       = List.map Circle.radius (Svg._circleRefs svg_example)
    /\ Svg._identified s'
       = filter (contains (Svg._px s') (Svg._py s')) (Svg._circleRefs s')
    /\ emitted = List.map Circle.id (Svg._identified s').
Proof.
  apply (Svg_next_full_scan always_half 0 svg_example).
  vm_compute. reflexivity.
Defined.

Section SvgDiagonal.

Local Open Scope R_scope.

(** X25: the SVG directive passes [_px] for both coordinates to the walk of
    the point, so the previous y-coordinate is lost: after any step with a
    first random number 0 <= u < 1, one coordinate of the point is the old
    [_px], and the two coordinates differ by an integer between 3 and 15;
    the point stays within 15 of the diagonal y = x, wherever it was. *)
Theorem Svg_next_diagonal (rnd : nat -> R) (k : nat) (s : Svg.t R) :
  List.length (Svg._circleRefs s) = CircleService.NUM_CIRCLES ->
  0 <= rnd k < 1 ->
  exists s' emitted k' (r : Z),
    Svg.next rnd k s = Some (s', emitted, k')
    /\ (3 <= r <= 15)%Z
    /\ Rabs (Svg._px s' - Svg._py s') = IZR r
    /\ (Svg._px s' = Svg._px s \/ Svg._py s' = Svg._px s).
Proof.
  intros Hlen Hu.
  destruct (Svg_next_spec rnd k s Hlen) as (refs' & k' & _ & _ & _ & Hnext).
  destruct (walk_radius 3 15 (rnd k) ltac:(lia) Hu) as (r & Hr & Hround).
  pose proof (pointRandomWalk_directions (Svg._px s) (Svg._px s) 3 15
                (rnd k) (rnd (S k)) r Hround) as Hstep.
  replace (lit CircleService.LOW_RADIUS) with 3 in Hnext
    by (cbn; unfold CircleService.LOW_RADIUS; lra).
  replace (lit CircleService.HIGH_RADIUS) with 15 in Hnext
    by (cbn; unfold CircleService.HIGH_RADIUS; lra).
  cbv zeta in Hstep.
  set (P := pointRandomWalk (Svg._px s) (Svg._px s) 3 15 (rnd k) (rnd (S k))) in *.
  do 3 eexists. exists r. split; [exact Hnext |]. split; [exact Hr |].
  cbn [Svg._px Svg._py].
  assert (H0 : 0 <= IZR r) by (apply IZR_le; lia).
  destruct Hstep as [[-> ->] | [[-> ->] | [[-> ->] | [-> ->]]]].
  - split; [| auto]. replace (_ - _) with (IZR r) by ring. apply Rabs_pos_eq, H0.
  - split; [| auto]. replace (_ - _) with (- IZR r) by ring.
    rewrite Rabs_Ropp. apply Rabs_pos_eq, H0.
  - split; [| auto]. replace (_ - _) with (- IZR r) by ring.
    rewrite Rabs_Ropp. apply Rabs_pos_eq, H0.
  - split; [| auto]. replace (_ - _) with (IZR r) by ring. apply Rabs_pos_eq, H0.
Qed.

Lemma Svg_next_diagonal_witness :
  exists s' emitted k' (r : Z),
    Svg.next always_half_R 0 svg_example_R = Some (s', emitted, k')
    /\ (3 <= r <= 15)%Z
    /\ Rabs (Svg._px s' - Svg._py s') = IZR r
    /\ (Svg._px s' = Svg._px svg_example_R \/ Svg._py s' = Svg._px svg_example_R).
Proof.
  apply (Svg_next_diagonal always_half_R 0 svg_example_R).
  - reflexivity.
  - unfold always_half_R. lra.
Defined.

End SvgDiagonal.
